(** * Top-languages fetcher: a shallow embedding of
      [src/fetchers/top-languages.js] and the properties of its
      pagination loop and of its language aggregation.

    Modelling conventions.
    - Edge sizes and the counts and sums built from them are integers,
      computed exactly (byte counts stay far below 2^53), or [NaN], which
      [undefined + n] gives.  What line 154 computes from them is a
      JavaScript Number: the weights are arbitrary Numbers and [Math.pow],
      [*] and the [-] of the comparator are the engine's.  They are the
      operations of a class [JsNumber]; a property that needs a fact about
      them states it as a law that IEEE 754 doubles satisfy.
    - An object used as a dictionary is what JavaScript makes of it.  Its
      own properties are listed in the order [Object.keys] enumerates them:
      array indices first, in ascending order, then the other names in the
      order of their creation.  A read looks through the prototype chain,
      so a name that [Object.prototype] has ([constructor], [toString],
      [__proto__], ...) is found in an empty object too, and assigning to
      [__proto__] replaces the prototype instead of creating a property.
    - [Array.prototype.sort] is a stable sort.  With a comparator that
      orders the elements consistently its result is fixed by that; with
      another one (line 119 when only some nodes carry a [size]) the
      order is left to the engine, and a property that holds whatever the
      order uses of the sort only that it permutes.
    - The awaited [retryer(fetcher, vars)] is the environment: a script
      gives the settlement of the first, second, ... call.  Every call and
      every [logger.error] is recorded in a trace of events. *)

From stdpp Require Import gmap strings list sorting.
From Stdlib Require Import ZArith.

#[local] Open Scope string_scope.
#[local] Open Scope list_scope.

(** A decidable proposition about a concrete input is proved by deciding
    it. *)
Ltac decided :=
  match goal with
  | |- ?P => apply (bool_decide_unpack P); vm_compute; exact I
  end.

(** ** Data model *)

(** One entry of [languages.edges]: [{ size, node: { color, name } }]. *)
Record LanguageNode := {
  node_color : string;
  node_name : string
}.

Record LanguageEdge := {
  edge_size : Z;
  edge_node : LanguageNode
}.

(** [languages: { edges }]; the list may be missing. *)
Record Languages := {
  lang_edges : option (list LanguageEdge)
}.

(** A repository node.  The query asks for [name] and [languages]; the
    comparator of line 119 also reads a [size], which a node may lack. *)
Record RepositoryNode := {
  repo_name : string;
  repo_size : option Z;
  repo_languages : option Languages
}.

Record PageInfo := {
  hasNextPage : bool;
  endCursor : option string
}.

Record Repositories := {
  pageInfo : PageInfo;
  nodes : list RepositoryNode
}.

(** One element of [res.data.errors]. *)
Record GraphQLError := {
  err_type : option string;
  err_message : option string
}.

(** The response [res]: [res.statusText], [res.data.errors] and
    [res.data.data.user.repositories] (absent when a link of that chain
    is). *)
Record Response := {
  statusText : string;
  errors : option (list GraphQLError);
  repositories : option Repositories
}.

(** ** Numbers *)

(** An integer, or [NaN]: the values of [size] and [count] during the
    fold. *)
Inductive num :=
  | Num (z : Z)
  | NaN.

#[global] Instance num_eq_dec : EqDecision num.
Proof. solve_decision. Defined.

(** [a + b]. *)
Definition num_add (a b : num) : num :=
  match a, b with
  | Num x, Num y => Num (x + y)
  | _, _ => NaN
  end.

(** Truthiness of a number: [0] and [NaN] are falsy. *)
Definition num_truthy (a : num) : bool :=
  match a with
  | Num z => negb (z =? 0)%Z
  | NaN => false
  end.

(** The sum of a list of numbers. *)
Definition num_total (l : list num) : num := foldr num_add (Num 0) l.

(** JavaScript Numbers and the operations lines 154 and 158 use on them.
    [ofRaw] is an integer or [NaN] as a Number; [sgn] is how
    [Array.prototype.sort] reads the result of a comparator: negative,
    positive, or else (zero and [NaN]) 0; [geq] is [>=]. *)
Class JsNumber := {
  Number : Type;
  Number_eq_dec :: EqDecision Number;
  ofRaw : num → Number;
  Math_pow : Number → Number → Number;
  times : Number → Number → Number;
  minus : Number → Number → Number;
  sgn : Number → Z;
  geq : Number → Number → bool
}.

(** What IEEE 754 gives the comparator of line 158: [>=] is transitive;
    for two Numbers that are not [NaN] (a Number is [NaN] when it is not
    [>=] itself), [b - a] not positive means [a >= b]; [b - a] positive
    means [b >= a]; and [a - a] is never positive. *)
Record OrderLaws `{JsNumber} : Prop := {
  geq_trans : ∀ a b c, geq a b → geq b c → geq a c;
  minus_le : ∀ a b, geq a a → geq b b → (sgn (minus b a) ≤ 0)%Z → geq a b;
  minus_gt : ∀ a b, (0 < sgn (minus b a))%Z → geq b a;
  minus_self : ∀ a, (sgn (minus a a) ≤ 0)%Z
}.

(** What [Math.pow] and [*] give at the default weights:
    [Math.pow(x, 0)] is 1 for every [x], also for [NaN];
    [Math.pow(x, 1)] is [x]; and [x * 1] is [x]. *)
Record WeightLaws `{JsNumber} : Prop := {
  pow_zero : ∀ x, Math_pow x (ofRaw (Num 0)) = ofRaw (Num 1);
  pow_one : ∀ x, Math_pow x (ofRaw (Num 1)) = x;
  times_one : ∀ x, times x (ofRaw (Num 1)) = x
}.

(** The integers with [NaN], computed exactly: JavaScript's arithmetic
    wherever the operands and the results are integers below 2^53 in
    magnitude and the exponent of [Math.pow] is a natural number.  A
    fraction or an infinity has no place among these values: for any other
    exponent the instance answers [NaN], which is not what [Math.pow]
    gives, and nothing below runs it there.  The concrete inputs below
    use the weights 0 and 1 only; the general properties hold for every
    [JsNumber]. *)
#[global] Instance smallInts : JsNumber := {|
  Number := num;
  ofRaw := id;
  Math_pow x w :=
    match w with
    | Num 0 => Num 1
    | Num (Zpos p) =>
        match x with
        | Num z => Num (z ^ Zpos p)
        | NaN => NaN
        end
    | _ => NaN
    end;
  times x y :=
    match x, y with
    | Num a, Num b => Num (a * b)
    | _, _ => NaN
    end;
  minus x y :=
    match x, y with
    | Num a, Num b => Num (a - b)
    | _, _ => NaN
    end;
  sgn x :=
    match x with
    | Num z => Z.sgn z
    | NaN => 0%Z
    end;
  geq x y :=
    match x, y with
    | Num a, Num b => (b <=? a)%Z
    | _, _ => false
    end
|}.

(** The instance that the concrete inputs below are run on: a Number that
    has to be a [num] is one of [smallInts]. *)
#[warnings="-projection-no-head-constant"]
Canonical Structure smallInts.

(** An entry of [languageStats] and of the result:
    [{ name, color, size, count }].  The [size] is an integer or [NaN]
    until line 154 overwrites it with a Number. *)
Record LanguageStat (S : Type) := {
  stat_name : string;
  stat_color : string;
  stat_size : S;
  stat_count : num
}.
Arguments stat_name {S} _.
Arguments stat_color {S} _.
Arguments stat_size {S} _.
Arguments stat_count {S} _.

(** ** Errors, outcomes and events *)

(** The second argument of [new CustomError(message, type)]: one of the
    two constants of the class, or the response's status text. *)
Inductive ErrorType :=
  | USER_NOT_FOUND
  | GRAPHQL_ERROR
  | StatusText (s : string).

Inductive Error :=
  | MissingParamError (missedParams : list string)
  | CustomError (message : option string) (type : ErrorType)
  | TypeError.

(** What an awaited computation comes to: a value, an exception, or a
    call that the environment never settles. *)
Inductive Outcome (A : Type) :=
  | Returned (a : A)
  | Thrown (e : Error)
  | Pending.
Arguments Returned {A} a.
Arguments Thrown {A} e.
Arguments Pending {A}.

#[global] Instance Outcome_ret : MRet Outcome := @Returned.
#[global] Instance Outcome_bind : MBind Outcome := fun A B f m =>
  match m with
  | Returned a => f a
  | Thrown e => Thrown e
  | Pending => Pending
  end.

Inductive Event :=
  | EvFetch (login : string) (reposAfter : option string)
  | EvLogError (errs : list GraphQLError).

(** A settled fetch: rejected with an error, or resolved with a response. *)
Definition Settlement : Type := Error + Response.

(** ** JavaScript helpers *)

(** Truthiness of a possibly absent string: [undefined], [null] and the
    empty string are falsy. *)
Definition truthy (s : option string) : bool :=
  match s with
  | Some s => negb (String.eqb s "")
  | None => false
  end.

(** [a || d] on a possibly absent string. *)
Definition or_else (a : option string) (d : string) : string :=
  match a with
  | Some s => if String.eqb s "" then d else s
  | None => d
  end.

(** [Array.prototype.sort(cmp)], with the result of [cmp] as [sort] reads
    it ([NaN] as 0).  The sort is stable: an insertion sort in which [x]
    stays in front of the elements that it does not compare greater than.
    Where [cmp] orders the elements consistently this is the one result a
    stable sort can give.  Where it does not (line 119 on nodes of which
    only some carry a [size]) ECMAScript leaves the order to the engine:
    the general properties below then use of the sort only that it
    permutes, or ask for sizes that make the comparator consistent. *)
Fixpoint sort_insert {A} (cmp : A -> A -> Z) (x : A) (l : list A) : list A :=
  match l with
  | [] => [x]
  | y :: l' => if (cmp x y <=? 0)%Z then x :: l else y :: sort_insert cmp x l'
  end.

Fixpoint js_sort {A} (cmp : A -> A -> Z) (l : list A) : list A :=
  match l with
  | [] => []
  | x :: l' => sort_insert cmp x (js_sort cmp l')
  end.

(** The names that every object inherits from [Object.prototype]; each
    reads as a truthy value (a function, or for [__proto__] the
    prototype). *)
Definition inherited (name : string) : bool :=
  bool_decide
    (name ∈ [ "constructor"; "__defineGetter__"; "__defineSetter__";
              "hasOwnProperty"; "__lookupGetter__"; "__lookupSetter__";
              "isPrototypeOf"; "propertyIsEnumerable"; "toString";
              "valueOf"; "__proto__"; "toLocaleString" ]).

(** A name that [Object.prototype] does not have. *)
Definition ordinary (name : string) : bool := negb (inherited name).

(** The value of a decimal digit. *)
Definition digitOf (c : Ascii.ascii) : option N :=
  let n := Ascii.N_of_ascii c in
  if ((48 <=? n) && (n <=? 57))%N then Some (n - 48)%N else None.

Fixpoint digitsOf (s : string) (acc : N) : option N :=
  match s with
  | EmptyString => Some acc
  | String c s' =>
      match digitOf c with
      | Some d => digitsOf s' (10 * acc + d)%N
      | None => None
      end
  end.

(** The array index a property name stands for, if any: the canonical
    decimal form of an integer from 0 to 2^32 - 2. *)
Definition arrayIndex (s : string) : option N :=
  match s with
  | EmptyString => None
  | String c s' =>
      if (Ascii.N_of_ascii c =? 48)%N && negb (String.eqb s' "") then None
      else
        match digitsOf s 0 with
        | Some n => if (n <=? 4294967294)%N then Some n else None
        | None => None
        end
  end.

(** Whether a new property with index [n] is enumerated before an existing
    one with index [m] ([None]: the name is no array index). *)
Definition comesBefore (n m : option N) : bool :=
  match n, m with
  | Some a, Some b => (a <? b)%N
  | Some _, None => true
  | None, _ => false
  end.

(** An own property of an object, read by name. *)
Fixpoint obj_get {V} (k : string) (o : list (string * V)) : option V :=
  match o with
  | [] => None
  | (k', v) :: o' => if String.eqb k k' then Some v else obj_get k o'
  end.

(** Assigning to an own property: it keeps its place. *)
Fixpoint obj_replace {V} (k : string) (v : V) (o : list (string * V))
  : list (string * V) :=
  match o with
  | [] => []
  | (k', v') :: o' =>
      if String.eqb k k' then (k, v) :: o' else (k', v') :: obj_replace k v o'
  end.

(** Creating a property: an array index goes to its place among the
    indices, another name behind everything. *)
Fixpoint obj_insert {V} (k : string) (v : V) (o : list (string * V))
  : list (string * V) :=
  match o with
  | [] => [(k, v)]
  | (k', v') :: o' =>
      if comesBefore (arrayIndex k) (arrayIndex k') then (k, v) :: o
      else (k', v') :: obj_insert k v o'
  end.

(** [obj[k] = v] on own properties. *)
Definition obj_set {V} (k : string) (v : V) (o : list (string * V))
  : list (string * V) :=
  match obj_get k o with
  | Some _ => obj_replace k v o
  | None => obj_insert k v o
  end.

(** [Object.keys(obj)]. *)
Definition obj_keys {V} (o : list (string * V)) : list string := o.*1.

(** ** Builders for concrete inputs *)

Definition mkEdge (size : Z) (name color : string) : LanguageEdge :=
  {| edge_size := size;
     edge_node := {| node_color := color; node_name := name |} |}.

Definition mkRepo (name : string) (size : option Z) (es : list LanguageEdge)
  : RepositoryNode :=
  {| repo_name := name; repo_size := size;
     repo_languages := Some {| lang_edges := Some es |} |}.

Definition mkPage (more : bool) (cursor : option string)
    (l : list RepositoryNode) : Settlement :=
  inr {| statusText := "OK"; errors := None;
         repositories :=
           Some {| pageInfo := {| hasNextPage := more; endCursor := cursor |};
                   nodes := l |} |}.

Definition mkStat (name color : string) (size : num) (count : num)
  : LanguageStat num :=
  {| stat_name := name; stat_color := color;
     stat_size := size; stat_count := count |}.

Definition noWrap (text : string) (width maxLines : nat) : list string :=
  take maxLines [String.substring 0 width text].

(** The two repositories of the specification's scenario, and the page that
    serves them. *)
Definition scenarioRepos : list RepositoryNode :=
  [ mkRepo "a" (Some 100%Z) [mkEdge 50 "X" "#111"];
    mkRepo "b" (Some 200%Z) [mkEdge 70 "X" "#222"; mkEdge 30 "Y" "#333"] ].

Definition scenarioScript : list Settlement :=
  [mkPage false None scenarioRepos].

Definition scenarioX : LanguageStat num := mkStat "X" "#222" (Num 120) (Num 2).

Definition scenarioY : LanguageStat num := mkStat "Y" "#333" (Num 30) (Num 1).

(** The same two repositories served on two pages. *)
Definition twoPages : list Settlement :=
  [ mkPage true (Some "c1") (take 1 scenarioRepos);
    mkPage false None (drop 1 scenarioRepos) ].

(** One repository whose edge list names a language twice. *)
Definition twiceX : list RepositoryNode :=
  [mkRepo "r" None [mkEdge 10 "X" "#111"; mkEdge 5 "X" "#222"]].

(** One repository without [languages]. *)
Definition bareRepo : RepositoryNode :=
  {| repo_name := "r"; repo_size := None; repo_languages := None |}.

(** A response with an error envelope. *)
Definition failing (status : string) (errs : list GraphQLError) : Response :=
  {| statusText := status; errors := Some errs; repositories := None |}.

Definition notFound : GraphQLError :=
  {| err_type := Some "NOT_FOUND";
     err_message := Some "Could not resolve to a User" |}.

Definition rateLimited : GraphQLError :=
  {| err_type := Some "RATE_LIMITED";
     err_message := Some "API rate limit exceeded" |}.

(** A response with neither an error envelope nor the user's data. *)
Definition hollow : Response :=
  {| statusText := "OK"; errors := None; repositories := None |}.

(** The scenario's repositories as the query returns them, without a
    [size]. *)
Definition sizelessRepos : list RepositoryNode :=
  [ mkRepo "a" None [mkEdge 50 "X" "#111"];
    mkRepo "b" None [mkEdge 70 "X" "#222"; mkEdge 30 "Y" "#333"] ].

(** A repository that no list names, called like a member of
    [Object.prototype], beside an ordinary one. *)
Definition shadowedRepos : list RepositoryNode :=
  [ mkRepo "constructor" None [mkEdge 10 "X" "#111"];
    mkRepo "a" None [mkEdge 1 "X" "#111"] ].

(** Two languages whose names are array indices. *)
Definition numberedLangs : list RepositoryNode :=
  [mkRepo "r" None [mkEdge 100 "10" "#111"; mkEdge 1 "2" "#222"]].


(** The same two languages in repositories without a size. *)
Definition protoPair : list RepositoryNode :=
  [ mkRepo "a" None [mkEdge 7 "name" "#111"];
    mkRepo "b" None [mkEdge 3 "__proto__" "#222"] ].

(** A language called like a member of [Object.prototype]. *)
Definition shadowedLang : list RepositoryNode :=
  [mkRepo "r" None [mkEdge 10 "toString" "#111"; mkEdge 5 "X" "#222"]].

(** An excluded repository without [languages]. *)
Definition bareExcluded : list RepositoryNode :=
  [ mkRepo "a" None [mkEdge 50 "X" "#111"];
    {| repo_name := "b"; repo_size := None; repo_languages := None |} ].

Section TopLanguages.

Context {JS : JsNumber}.

(** The process-wide exclusion list of [common/envs.js]. *)
Variable excludeRepositories : list string.

(** [wrapTextMultiline(text, width, maxLines)] of [common/fmt.js]: the
    wrapped lines of [text]. *)
Variable wrapTextMultiline : string -> nat -> nat -> list string.

(** The result: its own properties, as [Object.keys] enumerates them. *)
Definition TopLangData : Type := list (string * LanguageStat Number).

(** ** Pagination (lines 76-111) *)

(** Lines 85-101: the error thrown for a truthy [res.data.errors].
    Destructuring an empty array leaves [firstError] undefined, and reading
    its [type] is a [TypeError]. *)
Definition errorFor (res : Response) (errs : list GraphQLError) : Error :=
  match errs with
  | [] => TypeError
  | firstError :: _ =>
      if decide (err_type firstError = Some "NOT_FOUND") then
        CustomError
          (Some (or_else (err_message firstError) "Could not fetch user."))
          USER_NOT_FOUND
      else if truthy (err_message firstError) then
        CustomError
          (head (wrapTextMultiline (default "" (err_message firstError)) 90 1))
          (StatusText (statusText res))
      else
        CustomError
          (Some "Something went wrong while trying to retrieve the language data using the GraphQL API.")
          GRAPHQL_ERROR
  end.

(** The [while (true)] loop, one iteration per settlement of the script.
    With the script used up the next call is issued and never settles. *)
Fixpoint paginate (login : string) (script : list Settlement)
    (cursor : option string) (allRepoNodes : list RepositoryNode)
  : list Event * Outcome (list RepositoryNode) :=
  match script with
  | [] => ([EvFetch login cursor], Pending)
  | inl e :: _ => ([EvFetch login cursor], Thrown e)
  | inr res :: script' =>
      match errors res with
      | Some errs =>
          ([EvFetch login cursor; EvLogError errs], Thrown (errorFor res errs))
      | None =>
          match repositories res with
          | None => ([EvFetch login cursor], Thrown TypeError)
          | Some repos =>
              let allRepoNodes' := allRepoNodes ++ nodes repos in
              if negb (hasNextPage (pageInfo repos)) then
                ([EvFetch login cursor], Returned allRepoNodes')
              else
                let '(trace, out) :=
                  paginate login script' (endCursor (pageInfo repos))
                    allRepoNodes' in
                (EvFetch login cursor :: trace, out)
          end
      end
  end.

(** ** Aggregation (lines 113-162) *)

(** Line 113. *)
Definition allExcludedRepos (exclude_repo : list string) : list string :=
  exclude_repo ++ excludeRepositories.

(** Lines 114-116: the own properties of [repoToHide]. *)
Definition repoToHide (exclude_repo : list string) : gmap string bool :=
  list_to_map ((fun name => (name, true)) <$> allExcludedRepos exclude_repo).

(** Line 120: [!repoToHide[repo.name]].  The read finds the own property of
    a listed name, and for any other name what [Object.prototype] has under
    it, which is truthy. *)
Definition shown (exclude_repo : list string) (repo : RepositoryNode) : bool :=
  negb (default false (repoToHide exclude_repo !! repo_name repo)
        || inherited (repo_name repo)).

(** Line 119: [(a, b) => b.size - a.size].  With a size missing the
    difference is [NaN], which [sort] reads as [+0]. *)
Definition bySize (a b : RepositoryNode) : Z :=
  match repo_size b, repo_size a with
  | Some sb, Some sa => sb - sa
  | _, _ => 0
  end.

(** [node.languages.edges]: reading through a missing [languages], or the
    [length] of a missing [edges], is a [TypeError]. *)
Definition edgesOf (node : RepositoryNode) : Outcome (list LanguageEdge) :=
  match repo_languages node with
  | Some langs =>
      match lang_edges langs with
      | Some es => Returned es
      | None => Thrown TypeError
      end
  | None => Thrown TypeError
  end.

(** Line 125: [.filter((node) => node.languages.edges.length > 0)]. *)
Fixpoint filterNonEmpty (l : list RepositoryNode)
  : Outcome (list RepositoryNode) :=
  match l with
  | [] => mret []
  | node :: l' =>
      es ← edgesOf node;
      rest ← filterNonEmpty l';
      mret (if (0 <? length es)%nat then node :: rest else rest)
  end.

(** Line 126: [.reduce((acc, curr) => curr.languages.edges.concat(acc), [])]. *)
Definition flattenEdges (l : list RepositoryNode)
  : Outcome (list LanguageEdge) :=
  fold_left
    (fun acc curr => acc ← acc; es ← edgesOf curr; mret (es ++ acc))
    l (mret []).

(** The accumulator of the fold of line 127: an object that starts as
    [{}].  Its own properties are entries.  Its prototype is
    [Object.prototype] ([acc_proto = None]) until an assignment to
    [__proto__] puts an entry in front of it. *)
Record Acc := {
  acc_own : list (string * LanguageStat num);
  acc_proto : option (LanguageStat num)
}.

(** What [acc[langName]] reads, as far as lines 131-137 tell it apart: an
    entry; another truthy value, which has no [size] and no [count]; or a
    falsy one. *)
Inductive Read :=
  | Entry (prev : LanguageStat num)
  | Truthy
  | Falsy.

(** Line 129: [acc[langName]].  [__proto__] reads the prototype.  Any other
    name reads the own property if there is one, else the field of that
    name of an entry that serves as prototype, else what
    [Object.prototype] has. *)
Definition acc_get (acc : Acc) (name : string) : Read :=
  if String.eqb name "__proto__" then
    match acc_proto acc with
    | Some p => Entry p
    | None => Truthy
    end
  else
    match obj_get name (acc_own acc) with
    | Some prev => Entry prev
    | None =>
        match acc_proto acc with
        | Some p =>
            if String.eqb name "name" then
              if String.eqb (stat_name p) "" then Falsy else Truthy
            else if String.eqb name "color" then
              if String.eqb (stat_color p) "" then Falsy else Truthy
            else if String.eqb name "size" then
              if num_truthy (stat_size p) then Truthy else Falsy
            else if String.eqb name "count" then
              if num_truthy (stat_count p) then Truthy else Falsy
            else if inherited name then Truthy else Falsy
        | None => if inherited name then Truthy else Falsy
        end
    end.

(** Lines 133 and 141: [acc[langName] = {...}].  Assigning an object to
    [__proto__] makes it the prototype; any other name becomes or stays an
    own property. *)
Definition acc_set (name : string) (entry : LanguageStat num) (acc : Acc)
  : Acc :=
  if String.eqb name "__proto__" then
    {| acc_own := acc_own acc; acc_proto := Some entry |}
  else
    {| acc_own := obj_set name entry (acc_own acc);
       acc_proto := acc_proto acc |}.

(** Lines 127-149: one step of the fold over the edges.  A truthy [prev]
    that is no entry has neither [count] nor [size], and [undefined + n] is
    [NaN].  The counter [repoCount] of line 122 is written before it is
    read in either branch, so it carries nothing from one edge to the
    next. *)
Definition addEdge (acc : Acc) (edge : LanguageEdge) : Acc :=
  let langName := node_name (edge_node edge) in
  match acc_get acc langName with
  | Entry prev =>
      let repoCount := num_add (stat_count prev) (Num 1) in
      acc_set langName
        {| stat_name := langName;
           stat_color := node_color (edge_node edge);
           stat_size := num_add (stat_size prev) (Num (edge_size edge));
           stat_count := repoCount |} acc
  | Truthy =>
      let repoCount := NaN in
      acc_set langName
        {| stat_name := langName;
           stat_color := node_color (edge_node edge);
           stat_size := NaN;
           stat_count := repoCount |} acc
  | Falsy =>
      let repoCount := Num 1 in
      acc_set langName
        {| stat_name := langName;
           stat_color := node_color (edge_node edge);
           stat_size := Num (edge_size edge);
           stat_count := repoCount |} acc
  end.

(** The fold of line 127, from [{}]. *)
Definition foldEdges (es : list LanguageEdge) : Acc :=
  fold_left addEdge es {| acc_own := []; acc_proto := None |}.

(** [languageStats] as lines 151-162 use it: through [Object.keys] and by
    reading it at those keys, which are its own properties. *)
Definition languageStats (es : list LanguageEdge)
  : list (string * LanguageStat num) :=
  acc_own (foldEdges es).

(** Lines 151-155: every entry's [size] becomes
    [Math.pow(size, size_weight) * Math.pow(count, count_weight)]. *)
Definition weigh (size_weight count_weight : Number) (lang : LanguageStat num)
  : LanguageStat Number :=
  {| stat_name := stat_name lang;
     stat_color := stat_color lang;
     stat_size :=
       times (Math_pow (ofRaw (stat_size lang)) size_weight)
             (Math_pow (ofRaw (stat_count lang)) count_weight);
     stat_count := stat_count lang |}.

Definition weighAll (size_weight count_weight : Number)
    (stats : list (string * LanguageStat num))
  : list (string * LanguageStat Number) :=
  prod_map id (weigh size_weight count_weight) <$> stats.

(** [languageStats[key].size]; every key that is read is an own key. *)
Definition sizeOf (stats : list (string * LanguageStat Number)) (key : string)
  : Number :=
  match obj_get key stats with
  | Some lang => stat_size lang
  | None => ofRaw NaN
  end.

(** Lines 157-162.  The keys are own keys of [languageStats], none of which
    is [__proto__], so every [result[key] = ...] sets an own property. *)
Definition topLangs (stats : list (string * LanguageStat Number))
  : TopLangData :=
  fold_left
    (fun result key =>
       match obj_get key stats with
       | Some lang => obj_set key lang result
       | None => result
       end)
    (js_sort (fun a b => sgn (minus (sizeOf stats b) (sizeOf stats a)))
       (obj_keys stats))
    [].

(** Lines 118-120: [allRepoNodes] sorted, then without the hidden ones. *)
Definition keptNodes (allRepoNodes : list RepositoryNode)
    (exclude_repo : list string) : list RepositoryNode :=
  filter (fun repo => shown exclude_repo repo) (js_sort bySize allRepoNodes).

(** Lines 118-126: the edge sequence that the fold of line 127 runs over. *)
Definition flatEdges (allRepoNodes : list RepositoryNode)
    (exclude_repo : list string) : Outcome (list LanguageEdge) :=
  nonEmpty ← filterNonEmpty (keptNodes allRepoNodes exclude_repo);
  flattenEdges nonEmpty.

(** Lines 113-164, on the collected nodes. *)
Definition aggregate (allRepoNodes : list RepositoryNode)
    (exclude_repo : list string) (size_weight count_weight : Number)
  : Outcome TopLangData :=
  es ← flatEdges allRepoNodes exclude_repo;
  mret (topLangs (weighAll size_weight count_weight (languageStats es))).

(** ** The entry point (lines 66-165)

    An omitted argument is [None]; the defaults of lines 68-70 apply. *)
Definition fetchTopLanguages (username : option string)
    (exclude_repo : option (list string))
    (size_weight count_weight : option Number) (script : list Settlement)
  : list Event * Outcome TopLangData :=
  if negb (truthy username) then
    ([], Thrown (MissingParamError ["username"]))
  else
    let '(trace, out) := paginate (default "" username) script None [] in
    (trace,
     allRepoNodes ← out;
     aggregate allRepoNodes (default [] exclude_repo)
       (default (ofRaw (Num 1)) size_weight)
       (default (ofRaw (Num 0)) count_weight)).

(** ** Vocabulary of the properties *)

(** The edges of a sequence that name [lang]. *)
Definition edgesFor (lang : string) (es : list LanguageEdge)
  : list LanguageEdge :=
  filter (fun e => node_name (edge_node e) = lang) es.

(** The sum of the [size] fields of a sequence of edges. *)
Definition sumSizes (es : list LanguageEdge) : Z :=
  foldr (fun e s => (edge_size e + s)%Z) 0%Z es.

(** The edge list of a node, empty when the node has none. *)
Definition edgeList (node : RepositoryNode) : list LanguageEdge :=
  match edgesOf node with
  | Returned es => es
  | _ => []
  end.

(** A repository is excluded when either list names it. *)
Definition excluded (exclude_repo : list string) (repo : RepositoryNode)
  : Prop :=
  repo_name repo ∈ exclude_repo ∨ repo_name repo ∈ excludeRepositories.

(** The edges of the repositories that are not excluded, in node order. *)
Definition contributing (exclude_repo : list string)
    (allRepoNodes : list RepositoryNode) : list LanguageEdge :=
  filter (fun repo => ¬ excluded exclude_repo repo) allRepoNodes
  ≫= edgeList.

(** The repositories that neither list names and whose name
    [Object.prototype] does not have, in node order. *)
Definition shownRepos (exclude_repo : list string)
    (allRepoNodes : list RepositoryNode) : list RepositoryNode :=
  filter (fun repo => ¬ excluded exclude_repo repo
                      ∧ ordinary (repo_name repo))
    allRepoNodes.

(** Their edges. *)
Definition shownEdges (exclude_repo : list string)
    (allRepoNodes : list RepositoryNode) : list LanguageEdge :=
  shownRepos exclude_repo allRepoNodes ≫= edgeList.



(** The language names of a sequence of edges. *)
Definition langNames (es : list LanguageEdge) : list string :=
  (fun e => node_name (edge_node e)) <$> es.

(** The repositories that are not excluded and list [lang]. *)
Definition reposListing (exclude_repo : list string) (lang : string)
    (allRepoNodes : list RepositoryNode) : list RepositoryNode :=
  filter (fun repo => ¬ excluded exclude_repo repo
                      ∧ lang ∈ langNames (edgeList repo))
    allRepoNodes.

(** The [size] and the [count] reported for [lang]. *)
Definition sizeAndCount (lang : string) (out : Outcome TopLangData)
  : Outcome (option (Number * num)) :=
  data ← out;
  mret ((fun st => (stat_size st, stat_count st)) <$> obj_get lang data).

(** A page that resolves without an error envelope. *)
Definition pageOf (s : Settlement) : option Repositories :=
  match s with
  | inr res =>
      match errors res with
      | None => repositories res
      | Some _ => None
      end
  | inl _ => None
  end.

(** What a sequence of edges without a language [__proto__] leaves for
    [lang]: the colour of the last edge that names it, and the sizes summed
    and the edges counted, or [NaN] for both when [Object.prototype] has
    the name. *)
Definition summary (lang : string) (es : list LanguageEdge)
  : option (LanguageStat num) :=
  (fun e =>
     {| stat_name := lang;
        stat_color := node_color (edge_node e);
        stat_size :=
          if inherited lang then NaN else Num (sumSizes (edgesFor lang es));
        stat_count :=
          if inherited lang then NaN
          else Num (Z.of_nat (length (edgesFor lang es))) |})
  <$> last (edgesFor lang es).

(** The node carries [languages.edges]. *)
Definition hasEdges (node : RepositoryNode) : bool :=
  match edgesOf node with
  | Returned _ => true
  | _ => false
  end.

(** The entry built for a key of the ranking. *)
Definition entryOf {V} (stats : list (string * V)) (key : string)
  : option (string * V) :=
  pair key <$> obj_get key stats.

(** A page that resolves without an error envelope and asks for more
    ([more = true]) or closes the sequence ([more = false]). *)
Definition isPage (more : bool) (s : Settlement) : bool :=
  match pageOf s with
  | Some repos => bool_decide (hasNextPage (pageInfo repos) = more)
  | None => false
  end.

(** The nodes of the pages of a script, in page order. *)
Definition pagesNodes (script : list Settlement) : list RepositoryNode :=
  omap pageOf script ≫= nodes.

(** The cursor that the loop holds after a page. *)
Definition nextCursor (cursor : option string) (s : Settlement)
  : option string :=
  match pageOf s with
  | Some repos => endCursor (pageInfo repos)
  | None => cursor
  end.

(** The calls that fetch the pages of a script one after the other. *)
Fixpoint fetchEvents (login : string) (cursor : option string)
    (script : list Settlement) : list Event :=
  match script with
  | [] => []
  | s :: script' =>
      EvFetch login cursor :: fetchEvents login (nextCursor cursor s) script'
  end.

(** What the pagination loop of a call leaves in [allRepoNodes]. *)
Definition collected (username : option string) (script : list Settlement)
  : Outcome (list RepositoryNode) :=
  (paginate (default "" username) script None []).2.

(** Modelled from the spec: [wrapTextMultiline] lives in [common/fmt.js],
    which is not part of the sources at hand.  The specification describes
    its result as the message cut to lines of at most [width] characters
    ("truncated (<=90-char-per-line, first line only)"). *)
Definition wrapsWithin : Prop :=
  ∀ text width maxLines line,
    line ∈ wrapTextMultiline text width maxLines →
    (String.length line ≤ width)%nat.

(** The names of a sequence, each once, in the order of first occurrence. *)
Definition firstSeen (names : list string) : list string :=
  fold_left
    (fun seen name => if decide (name ∈ seen) then seen else seen ++ [name])
    names [].

(** A count as the fold leaves it: [NaN], or an integer from 1 up. *)
Definition countsEdges (c : num) : Prop :=
  c = NaN ∨ ∃ z, c = Num z ∧ (1 ≤ z)%Z.

(** ** Objects *)

Lemma obj_get_None {V} (k : string) (o : list (string * V)) :
  obj_get k o = None ↔ k ∉ obj_keys o.
Proof.
  unfold obj_keys. induction o as [|[k' v'] o IH]; simpl.
  - split; [intros _; apply not_elem_of_nil | done].
  - rewrite not_elem_of_cons. destruct (String.eqb k k') eqn:E.
    + apply String.eqb_eq in E. split; [done|]. intros [Hne _]. done.
    + apply String.eqb_neq in E. rewrite IH. tauto.
Qed.

Lemma obj_get_is_Some {V} (k : string) (o : list (string * V)) :
  is_Some (obj_get k o) ↔ k ∈ obj_keys o.
Proof.
  rewrite <- not_eq_None_Some, obj_get_None.
  split; [apply dec_stable | by intros ? ?].
Qed.

Lemma obj_get_Some_elem {V} (k : string) (v : V) o :
  obj_get k o = Some v → (k, v) ∈ o.
Proof.
  induction o as [|[k' v'] o IH]; simpl; [done|].
  destruct (String.eqb k k') eqn:E.
  - apply String.eqb_eq in E as ->. intros [= ->]. left.
  - intros H. right. auto.
Qed.

Lemma obj_get_elem {V} (k : string) (v : V) o :
  NoDup (obj_keys o) → (k, v) ∈ o → obj_get k o = Some v.
Proof.
  unfold obj_keys. induction o as [|[k' v'] o IH]; simpl.
  - intros _ H. by apply elem_of_nil in H.
  - intros [Hk Hnd]%NoDup_cons [[= -> ->]|Hin]%elem_of_cons.
    + by rewrite String.eqb_refl.
    + destruct (String.eqb k k') eqn:E; [|auto].
      apply String.eqb_eq in E as ->. destruct Hk.
      apply list_elem_of_fmap. by exists (k', v).
Qed.

Lemma obj_get_perm {V} (k : string) (o o' : list (string * V)) :
  o ≡ₚ o' → NoDup (obj_keys o) → obj_get k o = obj_get k o'.
Proof.
  intros Hperm Hnd.
  assert (NoDup (obj_keys o')) as Hnd'
    by (unfold obj_keys in *; by rewrite <- Hperm).
  destruct (obj_get k o) as [v|] eqn:E.
  - symmetry. apply obj_get_elem; [done|]. rewrite <- Hperm.
    by apply obj_get_Some_elem.
  - symmetry. apply obj_get_None. apply obj_get_None in E.
    unfold obj_keys in *. by rewrite <- Hperm.
Qed.

Lemma obj_get_replace_eq {V} (k : string) (v : V) o :
  is_Some (obj_get k o) → obj_get k (obj_replace k v o) = Some v.
Proof.
  induction o as [|[k' v'] o IH]; simpl; [by intros [? ?]|].
  destruct (String.eqb k k') eqn:E; simpl.
  - by rewrite String.eqb_refl.
  - by rewrite E.
Qed.

Lemma obj_get_replace_ne {V} (k k' : string) (v : V) o :
  k ≠ k' → obj_get k (obj_replace k' v o) = obj_get k o.
Proof.
  intros Hne. induction o as [|[k2 v2] o IH]; simpl; [done|].
  destruct (String.eqb k' k2) eqn:E; simpl.
  - apply String.eqb_eq in E as <-.
    by apply String.eqb_neq in Hne as ->.
  - by rewrite IH.
Qed.

Lemma obj_keys_replace {V} (k : string) (v : V) o :
  obj_keys (obj_replace k v o) = obj_keys o.
Proof.
  induction o as [|[k' v'] o IH]; simpl; [done|].
  destruct (String.eqb k k') eqn:E.
  - by apply String.eqb_eq in E as ->.
  - change (k' :: obj_keys (obj_replace k v o) = k' :: obj_keys o).
    by rewrite IH.
Qed.

Lemma obj_insert_perm {V} (k : string) (v : V) o :
  obj_insert k v o ≡ₚ (k, v) :: o.
Proof.
  induction o as [|[k' v'] o IH]; simpl; [done|].
  destruct (comesBefore _ _); [done|]. rewrite IH. apply Permutation_swap.
Qed.

Lemma obj_insert_plain {V} (k : string) (v : V) o :
  arrayIndex k = None → obj_insert k v o = o ++ [(k, v)].
Proof.
  intros Hk. induction o as [|[k' v'] o IH]; simpl; [done|].
  rewrite Hk. simpl. by rewrite IH.
Qed.

Lemma obj_get_insert_eq {V} (k : string) (v : V) o :
  obj_get k o = None → obj_get k (obj_insert k v o) = Some v.
Proof.
  induction o as [|[k' v'] o IH]; simpl.
  - by rewrite String.eqb_refl.
  - destruct (String.eqb k k') eqn:E; [done|]. intros Hnone.
    destruct (comesBefore _ _); simpl.
    + by rewrite String.eqb_refl.
    + rewrite E. auto.
Qed.

Lemma obj_get_insert_ne {V} (k k' : string) (v : V) o :
  k ≠ k' → obj_get k (obj_insert k' v o) = obj_get k o.
Proof.
  intros Hne. apply String.eqb_neq in Hne.
  induction o as [|[k2 v2] o IH]; simpl; [by rewrite Hne|].
  destruct (comesBefore _ _); simpl; [by rewrite Hne|]. by rewrite IH.
Qed.

Lemma obj_get_set_eq {V} (k : string) (v : V) o :
  obj_get k (obj_set k v o) = Some v.
Proof.
  unfold obj_set. destruct (obj_get k o) eqn:E.
  - apply obj_get_replace_eq. by rewrite E.
  - by apply obj_get_insert_eq.
Qed.

Lemma obj_get_set_ne {V} (k k' : string) (v : V) o :
  k ≠ k' → obj_get k (obj_set k' v o) = obj_get k o.
Proof.
  intros Hne. unfold obj_set. destruct (obj_get k' o).
  - by apply obj_get_replace_ne.
  - by apply obj_get_insert_ne.
Qed.

Lemma obj_keys_set_perm {V} (k : string) (v : V) o :
  obj_keys (obj_set k v o)
  ≡ₚ match obj_get k o with
     | Some _ => obj_keys o
     | None => k :: obj_keys o
     end.
Proof.
  unfold obj_set. destruct (obj_get k o).
  - by rewrite obj_keys_replace.
  - unfold obj_keys. by rewrite obj_insert_perm.
Qed.

Lemma obj_keys_set_plain {V} (k : string) (v : V) o :
  arrayIndex k = None →
  obj_keys (obj_set k v o)
  = match obj_get k o with
    | Some _ => obj_keys o
    | None => obj_keys o ++ [k]
    end.
Proof.
  intros Hk. unfold obj_set. destruct (obj_get k o).
  - by rewrite obj_keys_replace.
  - rewrite obj_insert_plain by done. unfold obj_keys. by rewrite fmap_app.
Qed.

Lemma obj_set_fresh {V} (k : string) (v : V) o :
  obj_get k o = None → arrayIndex k = None → obj_set k v o = o ++ [(k, v)].
Proof.
  intros Hnone Hk. unfold obj_set. rewrite Hnone. by apply obj_insert_plain.
Qed.

Lemma obj_keys_set_NoDup {V} (k : string) (v : V) o :
  NoDup (obj_keys o) → NoDup (obj_keys (obj_set k v o)).
Proof.
  intros Hnd. rewrite obj_keys_set_perm.
  destruct (obj_get k o) eqn:E; [done|].
  apply NoDup_cons. split; [|done]. by apply obj_get_None.
Qed.

(** ** The sort *)

Lemma sort_insert_perm {A} (cmp : A → A → Z) x l :
  sort_insert cmp x l ≡ₚ x :: l.
Proof.
  induction l as [|y l IH]; simpl; [done|].
  destruct (cmp x y <=? 0)%Z; [done|].
  rewrite IH. apply Permutation_swap.
Qed.

Lemma js_sort_perm {A} (cmp : A → A → Z) l : js_sort cmp l ≡ₚ l.
Proof.
  induction l as [|x l IH]; simpl; [done|].
  by rewrite sort_insert_perm, IH.
Qed.

(** Sorting by a Number, largest first, as the comparator of line 158
    does, where no Number is [NaN]. *)
Lemma sort_insert_sorted {A} (f : A → Number) x l :
  OrderLaws → geq (f x) (f x) → Forall (fun y => geq (f y) (f y)) l →
  StronglySorted (fun a b => geq (f a) (f b)) l →
  StronglySorted (fun a b => geq (f a) (f b))
    (sort_insert (fun a b => sgn (minus (f b) (f a))) x l).
Proof.
  intros Laws Hx Hl Hs. induction Hs as [|y l Hs IH Hall]; simpl.
  - repeat constructor.
  - apply Forall_cons in Hl as [Hy Hl].
    destruct (sgn (minus (f y) (f x)) <=? 0)%Z eqn:E.
    + apply Z.leb_le in E. apply (minus_le Laws) in E; [|done..].
      constructor; [by constructor|]. constructor; [done|].
      eapply Forall_impl; [exact Hall|]. simpl. intros z Hz.
      by eapply (geq_trans Laws).
    + apply Z.leb_gt in E. apply (minus_gt Laws) in E.
      constructor; [by apply IH|].
      rewrite sort_insert_perm. by constructor.
Qed.

Lemma js_sort_sorted {A} (f : A → Number) l :
  OrderLaws → Forall (fun y => geq (f y) (f y)) l →
  StronglySorted (fun a b => geq (f a) (f b))
    (js_sort (fun a b => sgn (minus (f b) (f a))) l).
Proof.
  intros Laws. induction 1 as [|x l Hx Hl IH]; simpl; [constructor|].
  apply sort_insert_sorted; [done..| |done].
  by rewrite js_sort_perm.
Qed.

Lemma StronglySorted_lookup_lt {A} (R : A → A → Prop) l i j a b :
  StronglySorted R l → (i < j)%nat →
  l !! i = Some a → l !! j = Some b → R a b.
Proof.
  intros Hs. revert i j. induction Hs as [|x l Hs IH Hall]; intros i j Hij.
  - by rewrite lookup_nil.
  - destruct i as [|i], j as [|j]; simpl; try lia.
    + intros [= ->] Hb. rewrite Forall_forall in Hall. apply Hall.
      by eapply list_elem_of_lookup_2.
    + apply IH. lia.
Qed.

Lemma omap_sorted {A B} (R : A → A → Prop) (R' : B → B → Prop)
    (g : A → option B) l :
  (∀ a b x y, R a b → g a = Some x → g b = Some y → R' x y) →
  StronglySorted R l → StronglySorted R' (omap g l).
Proof.
  intros Hg. induction 1 as [|a l Hs IH Hall]; simpl; [constructor|].
  destruct (g a) as [x|] eqn:Ea; [|done].
  constructor; [done|]. apply Forall_forall. intros y Hy.
  apply list_elem_of_omap in Hy as (b & Hb & Eb).
  rewrite Forall_forall in Hall. eauto.
Qed.

Lemma filter_ext_in {A} (P Q : A → Prop) `{!∀ x, Decision (P x)}
    `{!∀ x, Decision (Q x)} (l : list A) :
  (∀ x, x ∈ l → P x ↔ Q x) → filter P l = filter Q l.
Proof.
  induction l as [|x l IH]; intros Hext; [done|].
  rewrite !filter_cons, IH by (intros y Hy; apply Hext; by right).
  apply decide_ext, Hext. left.
Qed.

Lemma filter_all {A} (P : A → Prop) `{!∀ x, Decision (P x)} (l : list A) :
  (∀ x, x ∈ l → P x) → filter P l = l.
Proof.
  induction l as [|x l IH]; intros Hall; [done|].
  rewrite filter_cons_True by (apply Hall; left).
  f_equal. apply IH. intros y Hy. apply Hall. by right.
Qed.

(** The sort leaves elements of equal key in the order they had. *)
Lemma sort_insert_stable {A} (f : A → Number) v x l :
  OrderLaws →
  filter (fun y => f y = v) (sort_insert (fun a b => sgn (minus (f b) (f a))) x l)
  = filter (fun y => f y = v) (x :: l).
Proof.
  intros Laws. induction l as [|y l IH]; [done|]. simpl.
  destruct (sgn (minus (f y) (f x)) <=? 0)%Z eqn:E; [done|].
  apply Z.leb_gt in E.
  rewrite (filter_cons _ y), IH, !filter_cons.
  repeat case_decide; try done. subst.
  pose proof (minus_self Laws (f x)) as Hself. replace (f y) with (f x) in E.
  lia.
Qed.

Lemma js_sort_stable {A} (f : A → Number) v l :
  OrderLaws →
  filter (fun y => f y = v) (js_sort (fun a b => sgn (minus (f b) (f a))) l)
  = filter (fun y => f y = v) l.
Proof.
  intros Laws. induction l as [|x l IH]; [done|]. simpl.
  by rewrite sort_insert_stable, !filter_cons, IH.
Qed.

(** ** The fold over the edges (lines 127-149) *)

Lemma sumSizes_app es es' :
  sumSizes (es ++ es') = (sumSizes es + sumSizes es')%Z.
Proof.
  unfold sumSizes. induction es as [|e es IH]; simpl; [done|].
  rewrite IH. lia.
Qed.

Lemma sumSizes_perm es es' : es ≡ₚ es' → sumSizes es = sumSizes es'.
Proof.
  unfold sumSizes. induction 1; simpl; [done| congruence | lia | congruence].
Qed.

Lemma edgesFor_app lang es es' :
  edgesFor lang (es ++ es') = edgesFor lang es ++ edgesFor lang es'.
Proof. apply filter_app. Qed.

Lemma edgesFor_perm lang es es' :
  es ≡ₚ es' → edgesFor lang es ≡ₚ edgesFor lang es'.
Proof. unfold edgesFor. by intros ->. Qed.

Lemma edgesFor_snoc lang es e :
  edgesFor lang (es ++ [e])
  = if decide (node_name (edge_node e) = lang) then edgesFor lang es ++ [e]
    else edgesFor lang es.
Proof.
  rewrite edgesFor_app. unfold edgesFor at 2. rewrite filter_cons, filter_nil.
  case_decide; [done|by rewrite app_nil_r].
Qed.

Lemma foldEdges_snoc es e : foldEdges (es ++ [e]) = addEdge (foldEdges es) e.
Proof. unfold foldEdges. by rewrite fold_left_app. Qed.

(** Every branch of the fold stores, under the edge's language, an entry
    with that name and the edge's colour. *)
Lemma addEdge_set acc e :
  ∃ entry,
    addEdge acc e = acc_set (node_name (edge_node e)) entry acc
    ∧ stat_name entry = node_name (edge_node e)
    ∧ stat_color entry = node_color (edge_node e).
Proof. unfold addEdge. destruct (acc_get _ _); eauto. Qed.

Lemma acc_own_set name entry acc :
  acc_own (acc_set name entry acc)
  = if String.eqb name "__proto__" then acc_own acc
    else obj_set name entry (acc_own acc).
Proof. unfold acc_set. by destruct (String.eqb name "__proto__"). Qed.

Lemma obj_get_acc_set lang name entry acc :
  lang ≠ name →
  obj_get lang (acc_own (acc_set name entry acc)) = obj_get lang (acc_own acc).
Proof.
  intros Hne. rewrite acc_own_set. destruct (String.eqb name "__proto__");
    [done|by apply obj_get_set_ne].
Qed.

(** [__proto__] never becomes an own property of the accumulator. *)
Lemma languageStats_no_proto es :
  obj_get "__proto__" (languageStats es) = None.
Proof.
  unfold languageStats.
  induction es as [|e es IH] using rev_ind; [done|].
  rewrite foldEdges_snoc.
  destruct (addEdge_set (foldEdges es) e) as (entry & -> & _ & _).
  rewrite acc_own_set.
  destruct (String.eqb (node_name (edge_node e)) "__proto__") eqn:E; [done|].
  apply String.eqb_neq in E. by rewrite obj_get_set_ne.
Qed.

Lemma languageStats_NoDup es : NoDup (obj_keys (languageStats es)).
Proof.
  unfold languageStats.
  induction es as [|e es IH] using rev_ind; [apply NoDup_nil_2|].
  rewrite foldEdges_snoc.
  destruct (addEdge_set (foldEdges es) e) as (entry & -> & _ & _).
  rewrite acc_own_set. destruct (String.eqb _ "__proto__"); [done|].
  by apply obj_keys_set_NoDup.
Qed.

(** An entry has its key for a name and the colour of the last edge that
    named its language, whatever the names in the sequence are. *)
Lemma languageStats_entry lang es st :
  obj_get lang (languageStats es) = Some st →
  stat_name st = lang
  ∧ ∃ e, last (edgesFor lang es) = Some e
         ∧ stat_color st = node_color (edge_node e).
Proof.
  revert st. induction es as [|e es IH] using rev_ind; intros st; [done|].
  pose proof (languageStats_no_proto (es ++ [e])) as Hproto. revert Hproto.
  unfold languageStats in *. rewrite foldEdges_snoc.
  destruct (addEdge_set (foldEdges es) e) as (entry & -> & Hname & Hcolor).
  rewrite edgesFor_snoc.
  destruct (decide (node_name (edge_node e) = lang)) as [<-|Hne].
  - rewrite acc_own_set.
    destruct (String.eqb (node_name (edge_node e)) "__proto__") eqn:E.
    + apply String.eqb_eq in E. rewrite E. by intros ->.
    + rewrite obj_get_set_eq. intros _ [= <-]. split; [done|].
      exists e. by rewrite last_snoc.
  - intros _. rewrite obj_get_acc_set by done. apply IH.
Qed.

(** The own keys are the languages of the sequence, but for [__proto__]. *)
Lemma languageStats_keys_iff lang es :
  lang ∈ obj_keys (languageStats es)
  ↔ lang ≠ "__proto__" ∧ lang ∈ langNames es.
Proof.
  rewrite <- obj_get_is_Some.
  induction es as [|e es IH] using rev_ind.
  - unfold langNames. simpl. split; [by intros [? ?]|].
    by intros [_ ?%elem_of_nil].
  - unfold languageStats, langNames in *. rewrite foldEdges_snoc, fmap_app.
    destruct (addEdge_set (foldEdges es) e) as (entry & -> & _ & _).
    simpl. rewrite elem_of_app, list_elem_of_singleton.
    destruct (decide (lang = node_name (edge_node e))) as [->|Hne].
    + rewrite acc_own_set.
      destruct (String.eqb (node_name (edge_node e)) "__proto__") eqn:E.
      * apply String.eqb_eq in E. rewrite IH. rewrite E. tauto.
      * apply String.eqb_neq in E. rewrite obj_get_set_eq.
        split; [intros _; by auto|by eauto].
    + rewrite obj_get_acc_set by done. rewrite IH. tauto.
Qed.

(** Without a language [__proto__] the prototype stays what it was. *)
Lemma foldEdges_proto es :
  "__proto__" ∉ langNames es → acc_proto (foldEdges es) = None.
Proof.
  induction es as [|e es IH] using rev_ind; [done|].
  unfold langNames in *. rewrite fmap_app, not_elem_of_app. simpl.
  intros [Hes He%not_elem_of_cons]. destruct He as [He _].
  rewrite foldEdges_snoc.
  destruct (addEdge_set (foldEdges es) e) as (entry & -> & _ & _).
  unfold acc_set.
  assert (String.eqb (node_name (edge_node e)) "__proto__" = false) as ->
    by (apply String.eqb_neq; congruence).
  simpl. auto.
Qed.

Lemma languageStats_get lang es :
  "__proto__" ∉ langNames es →
  obj_get lang (languageStats es) = summary lang es.
Proof.
  induction es as [|e es IH] using rev_ind; [done|].
  intros Hproto.
  assert (("__proto__" ∉ langNames es)
          ∧ node_name (edge_node e) ≠ "__proto__")
    as [Hes He].
  { unfold langNames in *. rewrite fmap_app, not_elem_of_app in Hproto.
    destruct Hproto as [? [? _]%not_elem_of_cons]. split; [done|congruence]. }
  specialize (IH Hes). unfold languageStats in *.
  rewrite foldEdges_snoc. unfold addEdge, acc_get, acc_set.
  rewrite (foldEdges_proto es Hes).
  assert (String.eqb (node_name (edge_node e)) "__proto__" = false) as ->
    by (by apply String.eqb_neq).
  unfold summary. rewrite edgesFor_snoc.
  destruct (decide (node_name (edge_node e) = lang)) as [<-|Hne].
  - rewrite last_snoc, sumSizes_app, length_app. simpl. rewrite IH.
    unfold summary. destruct (last _) as [e'|] eqn:El; simpl.
    + rewrite obj_get_set_eq.
      destruct (inherited (node_name (edge_node e))); simpl; [done|].
      do 3 f_equal; lia.
    + apply last_None in El. rewrite El.
      destruct (inherited (node_name (edge_node e))); simpl;
        rewrite obj_get_set_eq; [done|]. do 3 f_equal; lia.
  - fold (summary lang es). rewrite <- IH.
    destruct (obj_get (node_name (edge_node e)) (acc_own (foldEdges es)));
      [|destruct (inherited (node_name (edge_node e)))]; simpl;
      by rewrite obj_get_set_ne by congruence.
Qed.

(** A count is [NaN] or counts at least one edge. *)
Lemma foldEdges_counts es :
  (∀ k st, obj_get k (acc_own (foldEdges es)) = Some st →
           countsEdges (stat_count st))
  ∧ (∀ p, acc_proto (foldEdges es) = Some p → countsEdges (stat_count p)).
Proof.
  induction es as [|e es [IHown IHproto]] using rev_ind; [done|].
  rewrite foldEdges_snoc.
  assert (∃ entry,
            addEdge (foldEdges es) e
            = acc_set (node_name (edge_node e)) entry (foldEdges es)
            ∧ countsEdges (stat_count entry)) as (entry & -> & Hentry).
  { unfold addEdge. destruct (acc_get _ _) as [prev| |] eqn:Eg.
    - eexists. split; [done|]. simpl.
      assert (countsEdges (stat_count prev)) as [->|(z & -> & Hz)].
      { unfold acc_get in Eg.
        destruct (String.eqb _ "__proto__").
        - destruct (acc_proto (foldEdges es)) eqn:Ep; [|done].
          injection Eg as <-. eauto.
        - destruct (obj_get _ (acc_own (foldEdges es))) eqn:Eo.
          + injection Eg as <-. eauto.
          + destruct (acc_proto (foldEdges es));
              repeat (destruct (String.eqb _ _) || destruct (num_truthy _)
                      || destruct (inherited _)); done. }
      + by left.
      + right. exists (z + 1)%Z. split; [done|lia].
    - eexists. split; [done|]. by left.
    - eexists. split; [done|]. right. exists 1%Z. by split. }
  unfold acc_set. destruct (String.eqb _ "__proto__") eqn:E; simpl.
  - split; [done|]. by intros p [= <-].
  - split; [|done]. intros k st.
    destruct (decide (k = node_name (edge_node e))) as [->|Hne].
    + rewrite obj_get_set_eq. by intros [= <-].
    + rewrite obj_get_set_ne by done. apply IHown.
Qed.

(** The own keys of a sequence whose names are no array indices stand in
    the order of first occurrence. *)
Lemma firstSeen_snoc names name :
  firstSeen (names ++ [name])
  = if decide (name ∈ firstSeen names) then firstSeen names
    else firstSeen names ++ [name].
Proof. unfold firstSeen. by rewrite fold_left_app. Qed.

Lemma languageStats_keys es :
  Forall (fun name => arrayIndex name = None) (langNames es) →
  obj_keys (languageStats es)
  = firstSeen (filter (fun name => name ≠ "__proto__") (langNames es)).
Proof.
  induction es as [|e es IH] using rev_ind; [done|].
  unfold langNames in *. rewrite fmap_app, Forall_app, filter_app.
  intros [Hes He%Forall_cons]. destruct He as [He _]. specialize (IH Hes).
  unfold languageStats in *. rewrite foldEdges_snoc.
  destruct (addEdge_set (foldEdges es) e) as (entry & -> & _ & _).
  rewrite acc_own_set. simpl. rewrite filter_cons, filter_nil.
  destruct (String.eqb (node_name (edge_node e)) "__proto__") eqn:E.
  - apply String.eqb_eq in E. rewrite decide_False by (by intros ?).
    by rewrite app_nil_r.
  - apply String.eqb_neq in E. rewrite decide_True by done.
    rewrite firstSeen_snoc, <- IH, obj_keys_set_plain by done.
    destruct (obj_get _ (acc_own (foldEdges es))) eqn:Eo.
    + rewrite decide_True; [done|]. apply obj_get_is_Some. by rewrite Eo.
    + rewrite decide_False; [done|]. by apply obj_get_None.
Qed.

(** ** Weighting and ranking (lines 151-162) *)

Lemma weighAll_get sw cw k stats :
  obj_get k (weighAll sw cw stats) = weigh sw cw <$> obj_get k stats.
Proof.
  induction stats as [|[k' v] stats IH]; simpl; [done|].
  destruct (String.eqb k k'); [done|exact IH].
Qed.

Lemma weighAll_keys sw cw stats :
  obj_keys (weighAll sw cw stats) = obj_keys stats.
Proof.
  unfold obj_keys, weighAll. rewrite <- list_fmap_compose.
  apply list_fmap_ext. by intros ? [].
Qed.

Lemma weigh_default lang :
  WeightLaws →
  weigh (ofRaw (Num 1)) (ofRaw (Num 0)) lang
  = {| stat_name := stat_name lang; stat_color := stat_color lang;
       stat_size := ofRaw (stat_size lang); stat_count := stat_count lang |}.
Proof.
  intros Laws. unfold weigh.
  by rewrite (pow_one Laws), (pow_zero Laws), (times_one Laws).
Qed.

Lemma omap_entry_skip {V} k (v : V) o (ks : list string) :
  k ∉ ks → omap (entryOf ((k, v) :: o)) ks = omap (entryOf o) ks.
Proof.
  induction ks as [|k' ks IH]; [done|].
  intros [Hne Hks]%not_elem_of_cons.
  change (match entryOf ((k, v) :: o) k' with
          | Some y => y :: omap (entryOf ((k, v) :: o)) ks
          | None => omap (entryOf ((k, v) :: o)) ks
          end
          = match entryOf o k' with
            | Some y => y :: omap (entryOf o) ks
            | None => omap (entryOf o) ks
            end).
  rewrite IH by done. unfold entryOf. simpl.
  assert (String.eqb k' k = false) as -> by (apply String.eqb_neq; congruence).
  done.
Qed.

Lemma omap_entry_self {V} (o : list (string * V)) :
  NoDup (obj_keys o) → omap (entryOf o) (obj_keys o) = o.
Proof.
  induction o as [|[k v] o IH]; [done|].
  change (obj_keys ((k, v) :: o)) with (k :: obj_keys o).
  intros [Hk Hnd]%NoDup_cons.
  change (match entryOf ((k, v) :: o) k with
          | Some y => y :: omap (entryOf ((k, v) :: o)) (obj_keys o)
          | None => omap (entryOf ((k, v) :: o)) (obj_keys o)
          end = (k, v) :: o).
  unfold entryOf at 1. simpl. rewrite String.eqb_refl. simpl.
  by rewrite omap_entry_skip, IH.
Qed.

Lemma omap_entry_keys {V} (stats : list (string * V)) (ks : list string) :
  obj_keys (omap (entryOf stats) ks) ⊆ ks.
Proof.
  intros k (kv & -> & (k' & Hk' & Hkv)%list_elem_of_omap)%list_elem_of_fmap.
  unfold entryOf in Hkv. destruct (obj_get k' stats); [|done].
  by injection Hkv as <-.
Qed.

(** The loop of lines 159-162 creates a property for every key. *)
Lemma fold_set_perm stats (ks : list string) (result : TopLangData) :
  NoDup ks → (∀ k, k ∈ ks → k ∉ obj_keys result) →
  fold_left
    (fun result key =>
       match obj_get key stats with
       | Some lang => obj_set key lang result
       | None => result
       end) ks result
  ≡ₚ result ++ omap (entryOf stats) ks.
Proof.
  intros Hnd. revert result.
  induction Hnd as [|k ks Hk Hnd IH]; intros result Hfresh.
  - simpl. by rewrite app_nil_r.
  - change (omap (entryOf stats) (k :: ks))
      with (match entryOf stats k with
            | Some y => y :: omap (entryOf stats) ks
            | None => omap (entryOf stats) ks
            end).
    simpl. unfold entryOf at 1.
    destruct (obj_get k stats) as [lang|] eqn:E; simpl.
    + assert (obj_get k result = None) as Hnone
        by (apply obj_get_None, Hfresh; left).
      rewrite IH.
      * unfold obj_set. rewrite Hnone, obj_insert_perm.
        by rewrite <- Permutation_middle.
      * intros k' Hk'. rewrite obj_keys_set_perm, Hnone.
        intros [->|Hin]%elem_of_cons; [done|].
        apply (Hfresh k'); [by right|done].
    + apply IH. intros k' Hk'. apply Hfresh. by right.
Qed.

(** With no array index among the keys the properties are created, and
    enumerated, in the order of the loop. *)
Lemma fold_set_fresh stats (ks : list string) (result : TopLangData) :
  NoDup ks → Forall (fun k => arrayIndex k = None) ks →
  (∀ k, k ∈ ks → k ∉ obj_keys result) →
  fold_left
    (fun result key =>
       match obj_get key stats with
       | Some lang => obj_set key lang result
       | None => result
       end) ks result
  = result ++ omap (entryOf stats) ks.
Proof.
  intros Hnd. revert result.
  induction Hnd as [|k ks Hk Hnd IH]; intros result Hplain Hfresh.
  - simpl. by rewrite app_nil_r.
  - apply Forall_cons in Hplain as [Hkplain Hplain].
    change (omap (entryOf stats) (k :: ks))
      with (match entryOf stats k with
            | Some y => y :: omap (entryOf stats) ks
            | None => omap (entryOf stats) ks
            end).
    simpl. unfold entryOf at 1.
    destruct (obj_get k stats) as [lang|] eqn:E; simpl.
    + assert (obj_get k result = None) as Hnone
        by (apply obj_get_None, Hfresh; left).
      rewrite obj_set_fresh by done.
      rewrite IH; [by rewrite <- app_assoc|done|].
      intros k' Hk'. unfold obj_keys. rewrite fmap_app.
      rewrite elem_of_app. intros [Hin|Hin].
      * apply (Hfresh k'); [by right|done].
      * apply list_elem_of_singleton in Hin. simpl in Hin. by subst.
    + apply IH; [done|]. intros k' Hk'. apply Hfresh. by right.
Qed.

(** The ranking only reorders the entries. *)
Lemma topLangs_perm stats :
  NoDup (obj_keys stats) → topLangs stats ≡ₚ stats.
Proof.
  intros Hnd. unfold topLangs. rewrite fold_set_perm.
  - simpl. rewrite js_sort_perm. by rewrite omap_entry_self.
  - by rewrite js_sort_perm.
  - intros k _. apply not_elem_of_nil.
Qed.

Lemma topLangs_NoDup stats :
  NoDup (obj_keys stats) → NoDup (obj_keys (topLangs stats)).
Proof.
  intros Hnd. unfold obj_keys in *. by rewrite topLangs_perm.
Qed.

Lemma topLangs_get stats k :
  NoDup (obj_keys stats) → obj_get k (topLangs stats) = obj_get k stats.
Proof.
  intros Hnd. symmetry. apply obj_get_perm; [|done]. symmetry.
  by apply topLangs_perm.
Qed.

Lemma topLangs_omap stats :
  NoDup (obj_keys stats) →
  Forall (fun k => arrayIndex k = None) (obj_keys stats) →
  topLangs stats
  = omap (entryOf stats)
      (js_sort (fun a b => sgn (minus (sizeOf stats b) (sizeOf stats a)))
         (obj_keys stats)).
Proof.
  intros Hnd Hplain. unfold topLangs. rewrite fold_set_fresh; [done| | |].
  - by rewrite js_sort_perm.
  - by rewrite js_sort_perm.
  - intros k _. apply not_elem_of_nil.
Qed.

Lemma sizeOf_entry stats k st :
  obj_get k stats = Some st → sizeOf stats k = stat_size st.
Proof. unfold sizeOf. by intros ->. Qed.

Lemma topLangs_sorted stats :
  OrderLaws → NoDup (obj_keys stats) →
  Forall (fun k => arrayIndex k = None) (obj_keys stats) →
  Forall (fun kv => geq (stat_size kv.2) (stat_size kv.2)) stats →
  StronglySorted (fun x y => geq (stat_size x.2) (stat_size y.2))
    (topLangs stats).
Proof.
  intros Laws Hnd Hplain Hord. rewrite topLangs_omap by done.
  eapply omap_sorted; [|apply (js_sort_sorted (sizeOf stats)); [done|]].
  - intros a b x y Hab. unfold entryOf, sizeOf in *.
    destruct (obj_get a stats), (obj_get b stats); simpl; try done.
    by intros [= <-] [= <-].
  - apply Forall_forall. intros k [st Hst]%obj_get_is_Some.
    rewrite (sizeOf_entry _ _ _ Hst). rewrite Forall_forall in Hord.
    apply (Hord (k, st)). by apply obj_get_Some_elem.
Qed.

(** ** Exclusion and flattening (lines 113-126) *)

Lemma repoToHide_lookup ex name :
  repoToHide ex !! name
  = if decide (name ∈ allExcludedRepos ex) then Some true else None.
Proof.
  unfold repoToHide. induction (allExcludedRepos ex) as [|n l IH].
  - by rewrite fmap_nil, list_to_map_nil, lookup_empty.
  - rewrite fmap_cons, list_to_map_cons, lookup_insert.
    destruct (decide (n = name)) as [->|Hne].
    + rewrite decide_True; [done|left].
    + rewrite IH. destruct (decide (name ∈ l)) as [Hin|Hin].
      * rewrite decide_True; [done|by right].
      * rewrite decide_False; [done|].
        intros [?|?]%elem_of_cons; [by subst|done].
Qed.

(** Line 120 lets a repository through when no list names it and its name
    is not one that [Object.prototype] has. *)
Lemma shown_spec ex repo :
  shown ex repo ↔ ¬ excluded ex repo ∧ ordinary (repo_name repo).
Proof.
  unfold shown, excluded, ordinary. rewrite repoToHide_lookup.
  unfold allExcludedRepos. rewrite <- elem_of_app.
  case_decide; destruct (inherited (repo_name repo)); simpl; tauto.
Qed.

Lemma filter_shown ex (l : list RepositoryNode) :
  Forall (fun repo => ordinary (repo_name repo)) l →
  filter (fun repo => shown ex repo) l
  = filter (fun repo => ¬ excluded ex repo) l.
Proof.
  intros Hall. rewrite Forall_forall in Hall. apply filter_ext_in.
  intros repo Hin. rewrite shown_spec. specialize (Hall repo Hin). tauto.
Qed.

Lemma filter_shown_eq ex (l : list RepositoryNode) :
  filter (fun repo => shown ex repo) l = shownRepos ex l.
Proof. apply filter_ext_in. intros repo _. apply shown_spec. Qed.

Lemma shownEdges_contributing ex nodes :
  Forall (fun repo => ordinary (repo_name repo)) nodes →
  shownEdges ex nodes = contributing ex nodes.
Proof.
  intros Hall. unfold shownEdges, contributing.
  by rewrite <- filter_shown_eq, filter_shown.
Qed.

Lemma shownEdges_subseteq ex nodes :
  langNames (shownEdges ex nodes) ⊆ langNames (contributing ex nodes).
Proof.
  unfold langNames, shownEdges, contributing.
  intros name (e & -> & He)%list_elem_of_fmap. apply list_elem_of_fmap.
  exists e. split; [done|].
  apply list_elem_of_bind in He as (repo & He & [Hs Hin]%list_elem_of_filter).
  apply list_elem_of_bind. exists repo. split; [done|].
  apply list_elem_of_filter. split; [|done]. by destruct Hs.
Qed.

Lemma edgesOf_cases node :
  (edgesOf node = Returned (edgeList node) ∧ hasEdges node = true)
  ∨ (edgesOf node = Thrown TypeError ∧ hasEdges node = false).
Proof.
  unfold hasEdges, edgeList, edgesOf.
  destruct (repo_languages node) as [[[es|]]|]; auto.
Qed.

Lemma edgesOf_hasEdges node :
  hasEdges node → edgesOf node = Returned (edgeList node).
Proof.
  destruct (edgesOf_cases node) as [[? _]|[_ ->]]; [done|]. by intros [].
Qed.

Lemma edgesOf_missing node :
  hasEdges node = false → edgesOf node = Thrown TypeError.
Proof.
  destruct (edgesOf_cases node) as [[_ ->]|[? _]]; done.
Qed.

Lemma filterNonEmpty_ok l :
  Forall (fun node => hasEdges node) l →
  filterNonEmpty l = Returned (filter (fun node => edgeList node ≠ []) l).
Proof.
  induction 1 as [|node l Hn Hl IH]; [done|]. simpl.
  rewrite (edgesOf_hasEdges node Hn), IH. simpl. rewrite filter_cons.
  case_decide as Hd.
  - by destruct (edgeList node).
  - by rewrite Hd.
Qed.

Lemma filterNonEmpty_throw l :
  ¬ Forall (fun node => hasEdges node) l →
  filterNonEmpty l = Thrown TypeError.
Proof.
  induction l as [|node l IH]; intros Hno; simpl.
  - destruct Hno. constructor.
  - destruct (hasEdges node) eqn:E.
    + rewrite edgesOf_hasEdges by (by rewrite E). simpl.
      rewrite IH; [done|]. intros Hl. apply Hno. constructor; [|done].
      by rewrite E.
    + by rewrite edgesOf_missing.
Qed.

Lemma flattenEdges_from l acc :
  Forall (fun node => hasEdges node) l →
  fold_left
    (fun acc curr => acc ← acc; es ← edgesOf curr; mret (es ++ acc))
    l (Returned acc)
  = Returned ((reverse l ≫= edgeList) ++ acc).
Proof.
  intros Hl. revert acc.
  induction Hl as [|node l Hn Hl IH]; intros acc; [done|]. simpl.
  rewrite (edgesOf_hasEdges node Hn). simpl.
  change (mret (edgeList node ++ acc)) with (Returned (edgeList node ++ acc)).
  rewrite IH, reverse_cons, bind_app, bind_cons. simpl.
  by rewrite app_nil_r, <- app_assoc.
Qed.

Lemma flattenEdges_ok l :
  Forall (fun node => hasEdges node) l →
  flattenEdges l = Returned (reverse l ≫= edgeList).
Proof.
  intros Hl. unfold flattenEdges.
  change (mret []) with (Returned (@nil LanguageEdge)).
  by rewrite flattenEdges_from, app_nil_r.
Qed.

Lemma bind_nonEmpty (l : list RepositoryNode) :
  filter (fun node => edgeList node ≠ []) l ≫= edgeList = l ≫= edgeList.
Proof.
  induction l as [|node l IH]; [done|].
  rewrite filter_cons, bind_cons. case_decide as Hn.
  - by rewrite bind_cons, IH.
  - by rewrite Hn, IH.
Qed.

Lemma keptNodes_perm nodes ex :
  keptNodes nodes ex ≡ₚ filter (fun repo => shown ex repo) nodes.
Proof. unfold keptNodes. by rewrite js_sort_perm. Qed.

Lemma flatEdges_ok nodes ex :
  Forall (fun node => hasEdges node)
    (filter (fun repo => shown ex repo) nodes) →
  ∃ es, flatEdges nodes ex = Returned es ∧ es ≡ₚ shownEdges ex nodes.
Proof.
  intros Hall. rewrite <- keptNodes_perm in Hall.
  exists (reverse (filter (fun node => edgeList node ≠ [])
                     (keptNodes nodes ex)) ≫= edgeList).
  split.
  - unfold flatEdges. rewrite filterNonEmpty_ok by done. simpl.
    apply flattenEdges_ok. rewrite Forall_forall in Hall.
    apply Forall_forall. intros node [_ Hin]%list_elem_of_filter. auto.
  - rewrite reverse_Permutation, bind_nonEmpty.
    unfold shownEdges. by rewrite keptNodes_perm, filter_shown_eq.
Qed.

Lemma flatEdges_throw nodes ex :
  ¬ Forall (fun node => hasEdges node)
      (filter (fun repo => shown ex repo) nodes) →
  flatEdges nodes ex = Thrown TypeError.
Proof.
  intros Hno. rewrite <- keptNodes_perm in Hno.
  unfold flatEdges. by rewrite filterNonEmpty_throw.
Qed.

(** ** The pagination loop (lines 76-111) *)

Lemma pageOf_Some s repos :
  pageOf s = Some repos →
  ∃ res, s = inr res ∧ errors res = None ∧ repositories res = Some repos.
Proof.
  destruct s as [e|res]; [done|]. simpl.
  destruct (errors res) eqn:E; [done|]. eauto.
Qed.

Lemma isPage_Some more s :
  isPage more s →
  ∃ repos, pageOf s = Some repos ∧ hasNextPage (pageInfo repos) = more.
Proof.
  unfold isPage. destruct (pageOf s) as [repos|]; [|done].
  intros Hmore%bool_decide_unpack. eauto.
Qed.

Lemma pagesNodes_cons s script repos :
  pageOf s = Some repos →
  pagesNodes (s :: script) = nodes repos ++ pagesNodes script.
Proof.
  intros Hs. unfold pagesNodes.
  change (omap pageOf (s :: script))
    with (match pageOf s with
          | Some r => r :: omap pageOf script
          | None => omap pageOf script
          end).
  by rewrite Hs, bind_cons.
Qed.

Lemma paginate_app login pre rest cursor acc :
  Forall (fun s => isPage true s) pre →
  paginate login (pre ++ rest) cursor acc
  = (fetchEvents login cursor pre
       ++ (paginate login rest (fold_left nextCursor pre cursor)
             (acc ++ pagesNodes pre)).1,
     (paginate login rest (fold_left nextCursor pre cursor)
        (acc ++ pagesNodes pre)).2).
Proof.
  intros Hpre. revert cursor acc.
  induction Hpre as [|s pre Hpage Hpre IH]; intros cursor acc.
  - unfold pagesNodes. simpl. rewrite app_nil_r. by destruct (paginate _ _ _ _).
  - apply isPage_Some in Hpage as (repos & Hs & Hmore).
    rewrite (pagesNodes_cons _ _ _ Hs).
    assert (nextCursor cursor s = endCursor (pageInfo repos)) as Hnext
      by (unfold nextCursor; by rewrite Hs).
    apply pageOf_Some in Hs as (res & -> & He & Hr).
    change ((inr res :: pre) ++ rest) with (inr res :: (pre ++ rest)).
    cbn [paginate fetchEvents fold_left].
    rewrite He, Hr, Hmore, Hnext, IH. cbn [negb].
    by rewrite <- app_assoc.
Qed.

Lemma paginate_last login last rest cursor acc repos :
  pageOf last = Some repos → hasNextPage (pageInfo repos) = false →
  paginate login (last :: rest) cursor acc
  = ([EvFetch login cursor], Returned (acc ++ nodes repos)).
Proof.
  intros (res & -> & He & Hr)%pageOf_Some Hmore.
  cbn [paginate]. by rewrite He, Hr, Hmore.
Qed.

Lemma paginate_errors login res errs rest cursor acc :
  errors res = Some errs →
  paginate login (inr res :: rest) cursor acc
  = ([EvFetch login cursor; EvLogError errs], Thrown (errorFor res errs)).
Proof. intros H. simpl. by rewrite H. Qed.

Lemma pagesNodes_snoc pre last repos :
  pageOf last = Some repos →
  pagesNodes (pre ++ [last]) = pagesNodes pre ++ nodes repos.
Proof.
  intros Hs. unfold pagesNodes. rewrite omap_app, bind_app.
  fold (pagesNodes [last]). rewrite (pagesNodes_cons _ _ _ Hs).
  unfold pagesNodes. simpl. by rewrite app_nil_r.
Qed.

Lemma fetchEvents_snoc login cursor pre last :
  fetchEvents login cursor (pre ++ [last])
  = fetchEvents login cursor pre
      ++ [EvFetch login (fold_left nextCursor pre cursor)].
Proof.
  revert cursor. induction pre as [|s pre IH]; intros cursor; [done|].
  simpl. by rewrite IH.
Qed.

Lemma length_pagesNodes script :
  length (pagesNodes script)
  = sum_list ((length ∘ nodes) <$> omap pageOf script).
Proof.
  unfold pagesNodes. induction (omap pageOf script) as [|r l IH]; [done|].
  rewrite bind_cons, length_app, IH. done.
Qed.

Lemma fetchTopLanguages_eq username exclude_repo sw cw script :
  truthy username = true →
  fetchTopLanguages username exclude_repo sw cw script
  = ((paginate (default "" username) script None []).1,
     allRepoNodes ← collected username script;
     aggregate allRepoNodes (default [] exclude_repo)
       (default (ofRaw (Num 1)) sw) (default (ofRaw (Num 0)) cw)).
Proof.
  intros Hu. unfold fetchTopLanguages, collected. rewrite Hu. simpl.
  by destruct (paginate _ _ _ _).
Qed.

Lemma collected_errors username pre res errs rest :
  Forall (fun s => isPage true s) pre → errors res = Some errs →
  collected username (pre ++ inr res :: rest) = Thrown (errorFor res errs).
Proof.
  intros Hpre He. unfold collected.
  by rewrite paginate_app, (paginate_errors _ _ _ _ _ _ He).
Qed.

Lemma fetchTopLanguages_errors username exclude_repo sw cw pre res errs rest :
  truthy username = true → Forall (fun s => isPage true s) pre →
  errors res = Some errs →
  (fetchTopLanguages username exclude_repo sw cw (pre ++ inr res :: rest)).2
  = Thrown (errorFor res errs).
Proof.
  intros Hu Hpre He. rewrite fetchTopLanguages_eq by done. simpl.
  by rewrite (collected_errors _ _ _ _ _ Hpre He).
Qed.

(** C7.  A fetch sequence of pages that resolve without an error envelope,
    each but the last asking for more and the last reporting
    [hasNextPage = false], ends the loop: it returns, after one call per
    page, each with the cursor the page before gave, and the accumulated
    nodes are the pages' nodes in page order, as many as the pages'
    node counts add up to. *)
Theorem pagination_terminates login pre last rest :
  Forall (fun s => isPage true s) pre → isPage false last →
  paginate login (pre ++ last :: rest) None []
  = (fetchEvents login None (pre ++ [last]),
     Returned (pagesNodes (pre ++ [last])))
  ∧ length (pagesNodes (pre ++ [last]))
    = sum_list ((length ∘ nodes) <$> omap pageOf (pre ++ [last])).
Proof.
  intros Hpre (repos & Hlast & Hmore)%isPage_Some.
  split; [|apply length_pagesNodes].
  rewrite paginate_app by done.
  rewrite (paginate_last _ _ _ _ _ _ Hlast Hmore). simpl.
  by rewrite (pagesNodes_snoc _ _ _ Hlast), fetchEvents_snoc.
Qed.

(** C8.  With an empty or absent [username] the call fails with
    [MissingParamError(["username"])] and its trace is empty: no page is
    fetched (and nothing is logged), whatever the environment would have
    answered. *)
Theorem missing_username username exclude_repo sw cw script :
  username = None ∨ username = Some "" →
  fetchTopLanguages username exclude_repo sw cw script
  = ([], Thrown (MissingParamError ["username"])).
Proof. by intros [-> | ->]. Qed.

(** C9.  A page whose error envelope has a first entry of type
    ["NOT_FOUND"] makes the call fail with the [USER_NOT_FOUND] error, with
    the provider's message when there is one and ["Could not fetch user."]
    otherwise.  Any other first entry makes it fail with an error typed by
    the response's status text that carries the first line of the message
    wrapped at 90 characters, at most 90 characters long, when there is a
    message, and with the generic [GRAPHQL_ERROR] error otherwise. *)
Theorem error_envelope username exclude_repo sw cw pre res firstError others
    rest :
  wrapsWithin →
  truthy username = true → Forall (fun s => isPage true s) pre →
  errors res = Some (firstError :: others) →
  let outcome :=
    (fetchTopLanguages username exclude_repo sw cw
       (pre ++ inr res :: rest)).2 in
  (err_type firstError = Some "NOT_FOUND" →
     (∀ message, err_message firstError = Some message → message ≠ "" →
        outcome = Thrown (CustomError (Some message) USER_NOT_FOUND))
     ∧ (truthy (err_message firstError) = false →
        outcome
        = Thrown (CustomError (Some "Could not fetch user.") USER_NOT_FOUND)))
  ∧ (err_type firstError ≠ Some "NOT_FOUND" →
     (∀ message, err_message firstError = Some message → message ≠ "" →
        outcome
        = Thrown (CustomError (head (wrapTextMultiline message 90 1))
                    (StatusText (statusText res)))
        ∧ ∀ line, head (wrapTextMultiline message 90 1) = Some line →
                  (String.length line ≤ 90)%nat)
     ∧ (truthy (err_message firstError) = false →
        outcome
        = Thrown
            (CustomError
               (Some "Something went wrong while trying to retrieve the language data using the GraphQL API.")
               GRAPHQL_ERROR))).
Proof.
  intros Hwrap Hu Hpre He outcome. subst outcome.
  rewrite (fetchTopLanguages_errors _ _ _ _ _ _ _ _ Hu Hpre He).
  unfold errorFor. split; intros Ht.
  - rewrite decide_True by done. split.
    + intros message -> Hne%String.eqb_neq. simpl. by rewrite Hne.
    + destruct (err_message firstError) as [m|]; simpl; [|done].
      intros Hm. apply negb_false_iff in Hm. by rewrite Hm.
  - rewrite decide_False by done. split.
    + intros message -> Hne%String.eqb_neq. simpl. rewrite Hne. simpl.
      split; [done|]. intros line Hline. eapply Hwrap.
      by apply head_Some_elem_of.
    + by intros ->.
Qed.

(** C10.  The error thrown for a non-empty error list is decided by the
    list's first element: two responses with the same status text whose
    error lists start with the same element make the call fail with the
    same error, whatever follows that element.  In particular a [NOT_FOUND]
    entry behind a first entry of another type never yields the
    [USER_NOT_FOUND] error. *)
Theorem first_error_decides username exclude_repo sw cw pre res res'
    firstError others others' rest rest' :
  truthy username = true → Forall (fun s => isPage true s) pre →
  errors res = Some (firstError :: others) →
  errors res' = Some (firstError :: others') →
  statusText res = statusText res' →
  ∃ e,
    (fetchTopLanguages username exclude_repo sw cw
       (pre ++ inr res :: rest)).2 = Thrown e
    ∧ (fetchTopLanguages username exclude_repo sw cw
         (pre ++ inr res' :: rest')).2 = Thrown e
    ∧ (err_type firstError ≠ Some "NOT_FOUND" →
       ∀ message, e ≠ CustomError message USER_NOT_FOUND).
Proof.
  intros Hu Hpre He He' Hstatus.
  exists (errorFor res (firstError :: others)).
  rewrite (fetchTopLanguages_errors _ _ _ _ _ _ _ _ Hu Hpre He).
  rewrite (fetchTopLanguages_errors _ _ _ _ _ _ _ _ Hu Hpre He').
  unfold errorFor. rewrite Hstatus. split_and!; [done..|].
  intros Ht message. rewrite decide_False by done.
  destruct (truthy (err_message firstError)); congruence.
Qed.

(** ** Further properties of the pagination (lines 76-111) *)

Lemma fetchTopLanguages_stops username exclude_repo sw cw pre s rest trace e :
  truthy username = true → Forall (fun s => isPage true s) pre →
  (∀ cursor acc,
     paginate (default "" username) (s :: rest) cursor acc
     = (EvFetch (default "" username) cursor :: trace, Thrown e)) →
  fetchTopLanguages username exclude_repo sw cw (pre ++ s :: rest)
  = (fetchEvents (default "" username) None (pre ++ [s]) ++ trace, Thrown e).
Proof.
  intros Hu Hpre Hs. rewrite fetchTopLanguages_eq by done.
  unfold collected. rewrite paginate_app, Hs by done. simpl.
  by rewrite fetchEvents_snoc, <- app_assoc.
Qed.

(** X8.  A fetch that the retryer rejects ends the call with the very error
    of the rejection, after any number of pages that asked for more: the
    nodes gathered so far are given up, nothing is logged, and no further
    page is asked for. *)
Theorem rejected_fetch_is_rethrown username exclude_repo sw cw pre e rest :
  truthy username = true → Forall (fun s => isPage true s) pre →
  fetchTopLanguages username exclude_repo sw cw (pre ++ inl e :: rest)
  = (fetchEvents (default "" username) None (pre ++ [inl e]), Thrown e).
Proof.
  intros Hu Hpre.
  rewrite (fetchTopLanguages_stops _ _ _ _ _ _ _ [] e Hu Hpre);
    [by rewrite app_nil_r|done].
Qed.

(** X9.  An error envelope is logged before the call fails: the error list
    is handed to the logger once, whole, as the last thing the call does
    after its fetches, and the pages behind the failing one are never
    asked for. *)
Theorem errors_are_logged_then_thrown username exclude_repo sw cw pre res errs
    rest :
  truthy username = true → Forall (fun s => isPage true s) pre →
  errors res = Some errs →
  fetchTopLanguages username exclude_repo sw cw (pre ++ inr res :: rest)
  = (fetchEvents (default "" username) None (pre ++ [inr res])
       ++ [EvLogError errs],
     Thrown (errorFor res errs)).
Proof.
  intros Hu Hpre He.
  apply (fetchTopLanguages_stops _ _ _ _ _ _ _ [EvLogError errs] _ Hu Hpre).
  intros cursor acc. by apply paginate_errors.
Qed.

(** X10.  An empty error list is still an error envelope: the array is
    truthy, its first element is undefined, and the call fails with a
    [TypeError] although the response may carry its repositories. *)
Theorem empty_error_list_is_a_type_error username exclude_repo sw cw pre res
    rest :
  truthy username = true → Forall (fun s => isPage true s) pre →
  errors res = Some [] →
  (fetchTopLanguages username exclude_repo sw cw (pre ++ inr res :: rest)).2
  = Thrown TypeError.
Proof.
  intros Hu Hpre He.
  by rewrite (fetchTopLanguages_errors _ _ _ _ _ _ _ _ Hu Hpre He).
Qed.

(** X11.  A response without error envelope and without the repositories
    of the user makes the call fail with a [TypeError], after the fetch and
    without a log entry. *)
Theorem missing_data_is_a_type_error username exclude_repo sw cw pre res rest :
  truthy username = true → Forall (fun s => isPage true s) pre →
  errors res = None → repositories res = None →
  fetchTopLanguages username exclude_repo sw cw (pre ++ inr res :: rest)
  = (fetchEvents (default "" username) None (pre ++ [inr res]),
     Thrown TypeError).
Proof.
  intros Hu Hpre He Hr.
  rewrite (fetchTopLanguages_stops _ _ _ _ _ _ _ [] TypeError Hu Hpre);
    [by rewrite app_nil_r|].
  intros cursor acc. simpl. by rewrite He, Hr.
Qed.

(** X12.  The loop has no bound of its own: after any number of pages that
    ask for more it issues one more fetch, with the cursor of the last
    page, and the call has not come to a result. *)
Theorem pagination_has_no_bound username exclude_repo sw cw script :
  truthy username = true → Forall (fun s => isPage true s) script →
  fetchTopLanguages username exclude_repo sw cw script
  = (fetchEvents (default "" username) None script
       ++ [EvFetch (default "" username) (fold_left nextCursor script None)],
     Pending).
Proof.
  intros Hu Hall. rewrite fetchTopLanguages_eq by done. unfold collected.
  rewrite <- (app_nil_r script) at 1 2. by rewrite paginate_app.
Qed.

Lemma paginate_log login script cursor acc errs :
  EvLogError errs ∈ (paginate login script cursor acc).1 →
  ∃ res, inr res ∈ script ∧ errors res = Some errs
         ∧ (paginate login script cursor acc).2 = Thrown (errorFor res errs)
         ∧ last (paginate login script cursor acc).1 = Some (EvLogError errs).
Proof.
  revert cursor acc.
  induction script as [|[e|res] script IH]; intros cursor acc; simpl.
  - by intros [?|?%elem_of_nil]%elem_of_cons.
  - by intros [?|?%elem_of_nil]%elem_of_cons.
  - destruct (errors res) as [errs'|] eqn:He.
    + simpl. intros [?|Hin]%elem_of_cons; [done|].
      apply list_elem_of_singleton in Hin as [= <-].
      exists res. split_and!; [left|done..].
    + destruct (repositories res) as [repos|];
        [|by intros [?|?%elem_of_nil]%elem_of_cons].
      destruct (hasNextPage (pageInfo repos)); simpl;
        [|by intros [?|?%elem_of_nil]%elem_of_cons].
      specialize (IH (endCursor (pageInfo repos)) (acc ++ nodes repos)).
      destruct (paginate login script _ _) as [trace out]. simpl in *.
      intros [?|Hin]%elem_of_cons; [done|].
      destruct (IH Hin) as (res' & Hres' & He' & Hout & Hlast).
      exists res'. split_and!; [by right|done..|].
      destruct trace; [by apply elem_of_nil in Hin|done].
Qed.

(** X13.  The logger is called only on the way to a failure: whatever the
    call logs is the error list of one of the responses, logging it is the
    last thing the call does, and the call then fails with the error made
    from that list.  A call that returns has logged nothing. *)
Theorem logging_means_failing username exclude_repo sw cw script errs :
  EvLogError errs ∈ (fetchTopLanguages username exclude_repo sw cw script).1 →
  ∃ res,
    inr res ∈ script ∧ errors res = Some errs
    ∧ (fetchTopLanguages username exclude_repo sw cw script).2
      = Thrown (errorFor res errs)
    ∧ last (fetchTopLanguages username exclude_repo sw cw script).1
      = Some (EvLogError errs).
Proof.
  destruct (truthy username) eqn:Hu.
  - rewrite fetchTopLanguages_eq by done. unfold collected. simpl.
    intros (res & Hres & He & Hout & Hlast)%paginate_log.
    exists res. by rewrite Hout.
  - unfold fetchTopLanguages. rewrite Hu. simpl. by intros ?%elem_of_nil.
Qed.

(** ** The aggregation as a whole (lines 113-164) *)

Lemma ranked_NoDup sw cw es :
  NoDup (obj_keys (topLangs (weighAll sw cw (languageStats es)))).
Proof.
  apply topLangs_NoDup. rewrite weighAll_keys. apply languageStats_NoDup.
Qed.

Lemma ranked_get sw cw es lang :
  obj_get lang (topLangs (weighAll sw cw (languageStats es)))
  = weigh sw cw <$> obj_get lang (languageStats es).
Proof.
  rewrite topLangs_get, weighAll_get; [done|].
  rewrite weighAll_keys. apply languageStats_NoDup.
Qed.

Lemma aggregate_ok nodes ex sw cw :
  Forall (fun node => hasEdges node)
    (filter (fun repo => shown ex repo) nodes) →
  ∃ es, flatEdges nodes ex = Returned es ∧ es ≡ₚ shownEdges ex nodes
        ∧ aggregate nodes ex sw cw
          = Returned (topLangs (weighAll sw cw (languageStats es))).
Proof.
  intros (es & Hes & Hperm)%flatEdges_ok. exists es. split_and!; [done..|].
  unfold aggregate. by rewrite Hes.
Qed.

Lemma aggregate_throw nodes ex sw cw :
  ¬ Forall (fun node => hasEdges node)
      (filter (fun repo => shown ex repo) nodes) →
  aggregate nodes ex sw cw = Thrown TypeError.
Proof.
  intros Hno%flatEdges_throw. unfold aggregate. by rewrite Hno.
Qed.

Lemma aggregate_Returned nodes ex sw cw out :
  aggregate nodes ex sw cw = Returned out →
  ∃ es, flatEdges nodes ex = Returned es ∧ es ≡ₚ shownEdges ex nodes
        ∧ out = topLangs (weighAll sw cw (languageStats es)).
Proof.
  intros Hout.
  destruct (decide (Forall (fun node => hasEdges node)
                      (filter (fun repo => shown ex repo) nodes)))
    as [Hall|Hno].
  - destruct (aggregate_ok nodes ex sw cw Hall) as (es & Hes & Hperm & Hagg).
    exists es. split_and!; [done..|]. congruence.
  - rewrite aggregate_throw in Hout; done.
Qed.

Lemma fetchTopLanguages_Returned username exclude_repo sw cw script nodes out :
  collected username script = Returned nodes →
  (fetchTopLanguages username exclude_repo sw cw script).2 = Returned out →
  aggregate nodes (default [] exclude_repo) (default (ofRaw (Num 1)) sw)
    (default (ofRaw (Num 0)) cw)
  = Returned out.
Proof.
  intros Hnodes. destruct (truthy username) eqn:Hu.
  - rewrite fetchTopLanguages_eq by done. simpl. by rewrite Hnodes.
  - unfold fetchTopLanguages. by rewrite Hu.
Qed.

Lemma fetchTopLanguages_collected username exclude_repo sw cw script out :
  (fetchTopLanguages username exclude_repo sw cw script).2 = Returned out →
  ∃ nodes, collected username script = Returned nodes.
Proof.
  destruct (truthy username) eqn:Hu.
  - rewrite fetchTopLanguages_eq by done. simpl.
    destruct (collected username script); [eauto|done|done].
  - unfold fetchTopLanguages. by rewrite Hu.
Qed.

(** The entry of a language in the result, from the collected nodes. *)
Lemma fetchTopLanguages_get username exclude_repo sw cw script nodes out lang :
  collected username script = Returned nodes →
  (fetchTopLanguages username exclude_repo sw cw script).2 = Returned out →
  ∃ es, flatEdges nodes (default [] exclude_repo) = Returned es
        ∧ es ≡ₚ shownEdges (default [] exclude_repo) nodes
        ∧ NoDup (obj_keys out)
        ∧ obj_get lang out
          = weigh (default (ofRaw (Num 1)) sw) (default (ofRaw (Num 0)) cw)
            <$> obj_get lang (languageStats es).
Proof.
  intros Hnodes Hout.
  pose proof (fetchTopLanguages_Returned _ _ _ _ _ _ _ Hnodes Hout) as Hagg.
  apply aggregate_Returned in Hagg as (es & Hes & Hperm & ->).
  exists es. split_and!; [done..| |].
  - apply ranked_NoDup.
  - apply ranked_get.
Qed.

(** An entry of the result is the weighted entry of the fold. *)
Lemma fetchTopLanguages_entry username exclude_repo sw cw script nodes out
    lang st :
  collected username script = Returned nodes →
  (fetchTopLanguages username exclude_repo sw cw script).2 = Returned out →
  obj_get lang out = Some st →
  ∃ es raw, flatEdges nodes (default [] exclude_repo) = Returned es
            ∧ es ≡ₚ shownEdges (default [] exclude_repo) nodes
            ∧ obj_get lang (languageStats es) = Some raw
            ∧ st = weigh (default (ofRaw (Num 1)) sw)
                     (default (ofRaw (Num 0)) cw) raw.
Proof.
  intros Hnodes Hout Hst.
  destruct (fetchTopLanguages_get _ _ sw cw _ _ _ lang Hnodes Hout)
    as (es & Hes & Hperm & _ & Hget).
  rewrite Hst in Hget. symmetry in Hget.
  apply fmap_Some in Hget as (raw & Hraw & ->). by exists es, raw.
Qed.

Lemma langNames_perm es es' : es ≡ₚ es' → langNames es ≡ₚ langNames es'.
Proof. unfold langNames. by intros ->. Qed.

(** An entry of the result for an ordinary language, where no language is
    called [__proto__]. *)
Lemma fetchTopLanguages_summary username exclude_repo sw cw script nodes out
    lang st :
  collected username script = Returned nodes →
  (fetchTopLanguages username exclude_repo sw cw script).2 = Returned out →
  obj_get lang out = Some st →
  "__proto__" ∉ langNames (shownEdges (default [] exclude_repo) nodes) →
  ∃ es raw, flatEdges nodes (default [] exclude_repo) = Returned es
            ∧ es ≡ₚ shownEdges (default [] exclude_repo) nodes
            ∧ summary lang es = Some raw
            ∧ st = weigh (default (ofRaw (Num 1)) sw)
                     (default (ofRaw (Num 0)) cw) raw.
Proof.
  intros Hnodes Hout Hst Hproto.
  destruct (fetchTopLanguages_entry _ _ _ _ _ _ _ _ _ Hnodes Hout Hst)
    as (es & raw & Hes & Hperm & Hraw & ->).
  exists es, raw. split_and!; [done..| |done].
  rewrite <- languageStats_get; [done|].
  by rewrite (langNames_perm _ _ Hperm).
Qed.

Lemma summary_Some lang es st :
  summary lang es = Some st →
  ordinary lang →
  stat_size st = Num (sumSizes (edgesFor lang es))
  ∧ stat_count st = Num (Z.of_nat (length (edgesFor lang es)))
  ∧ edgesFor lang es ≠ [].
Proof.
  unfold summary, ordinary.
  destruct (last (edgesFor lang es)) as [e|] eqn:El; [|done].
  intros [= <-] Hord. destruct (inherited lang); [done|]. simpl.
  split_and!; [done..|]. intros Hnil. by rewrite Hnil in El.
Qed.

Lemma length_edgesFor_NoDup lang es :
  NoDup (langNames es) →
  length (edgesFor lang es) = if decide (lang ∈ langNames es) then 1 else 0.
Proof.
  unfold langNames, edgesFor. induction es as [|e es IH]; [done|].
  rewrite fmap_cons. intros [Hnotin Hnd]%NoDup_cons.
  rewrite filter_cons. destruct (decide (node_name (edge_node e) = lang))
    as [<-|Hne].
  - simpl. rewrite IH by done. rewrite decide_False by done.
    rewrite decide_True; [done|left].
  - rewrite IH by done. destruct (decide (lang ∈ _ <$> es)) as [Hin|Hin].
    + rewrite decide_True; [done|by right].
    + rewrite decide_False; [done|]. by intros [?|?]%elem_of_cons.
Qed.

Lemma length_edgesFor_bind lang (l : list RepositoryNode) :
  Forall (fun repo => NoDup (langNames (edgeList repo))) l →
  length (edgesFor lang (l ≫= edgeList))
  = length (filter (fun repo => lang ∈ langNames (edgeList repo)) l).
Proof.
  induction 1 as [|repo l Hrepo Hl IH]; [done|].
  rewrite bind_cons, edgesFor_app, length_app, IH, filter_cons.
  rewrite length_edgesFor_NoDup by done. by case_decide.
Qed.

Lemma bind_edgeList_nil (l : list RepositoryNode) :
  Forall (fun node => edgeList node = []) l → l ≫= edgeList = [].
Proof.
  induction 1 as [|node l Hn _ IH]; [done|]. by rewrite bind_cons, Hn, IH.
Qed.

Lemma reposListing_filter ex lang nodes :
  reposListing ex lang nodes
  = filter (fun repo => lang ∈ langNames (edgeList repo))
      (filter (fun repo => ¬ excluded ex repo) nodes).
Proof.
  unfold reposListing. rewrite list_filter_filter.
  apply list_filter_iff. intros repo. tauto.
Qed.

Lemma sizeAndCount_perm sw cw lang es es' :
  es ≡ₚ es' →
  (fun st => (stat_size st, stat_count st))
    <$> (weigh sw cw <$> summary lang es)
  = (fun st => (stat_size st, stat_count st))
      <$> (weigh sw cw <$> summary lang es').
Proof.
  intros Hperm%(edgesFor_perm lang). unfold summary.
  rewrite <- (sumSizes_perm _ _ Hperm), <- (Permutation_length Hperm).
  destruct (last (edgesFor lang es)) as [e|] eqn:E,
           (last (edgesFor lang es')) as [e'|] eqn:E'; simpl; try done.
  - apply last_None in E'. rewrite E' in Hperm.
    apply Permutation_nil_r in Hperm. by rewrite Hperm in E.
  - apply last_None in E. rewrite E in Hperm.
    apply Permutation_nil in Hperm. by rewrite Hperm in E'.
Qed.

(** Without a language [__proto__] the sizes and counts depend on the
    shown repositories only, whatever their order. *)
Lemma sizeAndCount_aggregate sw cw lang ex nodes nodes' :
  filter (fun repo => shown ex repo) nodes
  ≡ₚ filter (fun repo => shown ex repo) nodes' →
  "__proto__" ∉ langNames (shownEdges ex nodes) →
  sizeAndCount lang (aggregate nodes ex sw cw)
  = sizeAndCount lang (aggregate nodes' ex sw cw).
Proof.
  intros Hperm Hproto.
  assert (shownEdges ex nodes ≡ₚ shownEdges ex nodes') as Hedges
    by (unfold shownEdges; by rewrite <- !filter_shown_eq, Hperm).
  destruct (decide (Forall (fun node => hasEdges node)
                      (filter (fun repo => shown ex repo) nodes)))
    as [Hall|Hno].
  - destruct (aggregate_ok nodes ex sw cw Hall) as (es & _ & Hes & ->).
    rewrite Hperm in Hall.
    destruct (aggregate_ok nodes' ex sw cw Hall) as (es' & _ & Hes' & ->).
    simpl. rewrite !ranked_get, !languageStats_get.
    + f_equal. apply sizeAndCount_perm. by rewrite Hes, Hes'.
    + by rewrite (langNames_perm _ _ Hes'), <- (langNames_perm _ _ Hedges).
    + by rewrite (langNames_perm _ _ Hes).
  - rewrite (aggregate_throw nodes) by done. rewrite Hperm in Hno.
    by rewrite (aggregate_throw nodes') by done.
Qed.

Lemma aggregate_same_shown nodes ex ex' sw cw :
  (∀ repo, repo ∈ nodes → excluded ex repo ↔ excluded ex' repo) →
  aggregate nodes ex sw cw = aggregate nodes ex' sw cw.
Proof.
  intros Hsame. unfold aggregate, flatEdges, keptNodes.
  rewrite (filter_ext_in (fun repo => shown ex repo)
             (fun repo => shown ex' repo)); [done|].
  intros repo Hin. rewrite js_sort_perm in Hin.
  rewrite !shown_spec. by rewrite (Hsame repo Hin).
Qed.

(** ** The properties of the result *)

(** C1, as amended.  The [count] of a language in the result is the number
    of edges naming it in the edge lists of the repository nodes that are
    not excluded: every edge adds one, also a second edge of one node.
    When no such node names a language twice in its edge list, this is the
    number of collected nodes that are not excluded and list the language.
    This is so where the names are ordinary: no collected repository and
    not the language is called like a member of [Object.prototype], and no
    edge names a language [__proto__]. *)
Theorem count_is_edge_count username exclude_repo sw cw script nodes out lang
    st :
  collected username script = Returned nodes →
  (fetchTopLanguages username exclude_repo sw cw script).2 = Returned out →
  obj_get lang out = Some st →
  Forall (fun repo => ordinary (repo_name repo)) nodes →
  ordinary lang →
  "__proto__" ∉ langNames (contributing (default [] exclude_repo) nodes) →
  stat_count st
  = Num (Z.of_nat (length (edgesFor lang
                             (contributing (default [] exclude_repo) nodes))))
  ∧ (Forall (fun repo => NoDup (langNames (edgeList repo)))
       (filter (fun repo => ¬ excluded (default [] exclude_repo) repo) nodes) →
     stat_count st
     = Num (Z.of_nat
              (length (reposListing (default [] exclude_repo) lang nodes)))).
Proof.
  intros Hnodes Hout Hst Hrepos Hlang Hproto.
  rewrite <- (shownEdges_contributing _ _ Hrepos) in *.
  destruct (fetchTopLanguages_summary _ _ _ _ _ _ _ _ _ Hnodes Hout Hst Hproto)
    as (es & raw & _ & Hperm & Hraw & ->).
  apply summary_Some in Hraw as (_ & Hcount & _); [|done]. simpl.
  assert (stat_count raw
          = Num (Z.of_nat
                   (length (edgesFor lang
                              (shownEdges (default [] exclude_repo) nodes)))))
    as Hedges.
  { rewrite Hcount. do 2 f_equal. apply Permutation_length.
    by apply edgesFor_perm. }
  split; [done|]. intros Hnd. rewrite Hedges. do 2 f_equal.
  rewrite (shownEdges_contributing _ _ Hrepos). unfold contributing.
  rewrite length_edgesFor_bind by done. by rewrite reposListing_filter.
Qed.

(** C4, as amended.  A repository node that is not excluded and lacks
    [languages] or its [edges] makes the aggregation fail with a
    [TypeError]; such a node is not read as a node with no edges.  When
    every node that is not excluded carries an edge list the aggregation
    returns, and it returns the empty mapping when all those lists are
    empty, as they are with no repositories or with every repository
    excluded.  This is so where no collected repository is called like a
    member of [Object.prototype]. *)
Theorem missing_edges_raise username exclude_repo sw cw script nodes :
  truthy username = true →
  collected username script = Returned nodes →
  Forall (fun repo => ordinary (repo_name repo)) nodes →
  let visible :=
    filter (fun repo => ¬ excluded (default [] exclude_repo) repo) nodes in
  (Exists (fun node => ¬ hasEdges node) visible →
   (fetchTopLanguages username exclude_repo sw cw script).2
   = Thrown TypeError)
  ∧ (Forall (fun node => hasEdges node) visible →
     ∃ out,
       (fetchTopLanguages username exclude_repo sw cw script).2
       = Returned out
       ∧ (Forall (fun node => edgeList node = []) visible → out = [])).
Proof.
  intros Hu Hnodes Hrepos visible. subst visible.
  rewrite fetchTopLanguages_eq by done. simpl. rewrite Hnodes. simpl.
  rewrite <- (filter_shown _ _ Hrepos). split; intros Hall.
  - apply aggregate_throw. intros Hforall.
    apply Exists_exists in Hall as (node & Hin & Hno).
    rewrite Forall_forall in Hforall. auto.
  - destruct (aggregate_ok nodes (default [] exclude_repo)
                (default (ofRaw (Num 1)) sw) (default (ofRaw (Num 0)) cw) Hall)
      as (es & _ & Hperm & ->).
    eexists. split; [done|]. intros Hempty.
    assert (shownEdges (default [] exclude_repo) nodes = []) as Hnil.
    { unfold shownEdges. rewrite <- filter_shown_eq.
      by apply bind_edgeList_nil. }
    rewrite Hnil in Hperm. apply Permutation_nil_r in Hperm. by subst.
Qed.

(** C5, as amended.  The [color] of a language in the result is the colour
    carried by the last edge naming that language in the sequence the fold
    runs over: every edge of the language overwrites the colour. *)
Theorem color_is_last_edge username exclude_repo sw cw script nodes out lang
    st :
  collected username script = Returned nodes →
  (fetchTopLanguages username exclude_repo sw cw script).2 = Returned out →
  obj_get lang out = Some st →
  ∃ es e,
    flatEdges nodes (default [] exclude_repo) = Returned es
    ∧ last (edgesFor lang es) = Some e
    ∧ stat_color st = node_color (edge_node e).
Proof.
  intros Hnodes Hout Hst.
  destruct (fetchTopLanguages_entry _ _ _ _ _ _ _ _ _ Hnodes Hout Hst)
    as (es & raw & Hes & _ & Hraw & ->).
  apply languageStats_entry in Hraw as (_ & e & He & Hcolor).
  by exists es, e.
Qed.

(** ** The sort of line 119 on nodes of uniform size *)















(** ** Further properties of the aggregation *)

(** X1.  The result has one entry for a language name, and the [name]
    field of an entry is the key it is stored under. *)
Theorem names_are_unique_keys username exclude_repo sw cw script out :
  (fetchTopLanguages username exclude_repo sw cw script).2 = Returned out →
  NoDup (obj_keys out)
  ∧ ∀ lang st, (lang, st) ∈ out → stat_name st = lang.
Proof.
  intros Hout.
  destruct (fetchTopLanguages_collected _ _ _ _ _ _ Hout) as [nodes Hnodes].
  destruct (fetchTopLanguages_get _ _ sw cw _ _ _ "" Hnodes Hout)
    as (_ & _ & _ & Hnd & _).
  split; [done|]. intros lang st Hin.
  pose proof (obj_get_elem _ _ _ Hnd Hin) as Hst.
  destruct (fetchTopLanguages_entry _ _ _ _ _ _ _ _ _ Hnodes Hout Hst)
    as (es & raw & _ & _ & Hraw & ->).
  simpl. by apply languageStats_entry in Hraw as [? _].
Qed.

(** X2.  The languages of the result are the languages, other than
    [__proto__], named by an edge of a repository that line 120 lets
    through: one that neither list names and whose name [Object.prototype]
    does not have.  None of these is dropped and no other is made up. *)
Theorem languages_are_those_shown username exclude_repo sw cw script nodes
    out lang :
  collected username script = Returned nodes →
  (fetchTopLanguages username exclude_repo sw cw script).2 = Returned out →
  lang ∈ obj_keys out
  ↔ lang ≠ "__proto__"
    ∧ lang ∈ langNames (shownEdges (default [] exclude_repo) nodes).
Proof.
  intros Hnodes Hout.
  destruct (fetchTopLanguages_get _ _ sw cw _ _ _ lang Hnodes Hout)
    as (es & _ & Hperm & _ & Hget).
  rewrite <- obj_get_is_Some, Hget, fmap_is_Some, obj_get_is_Some.
  rewrite languageStats_keys_iff. by rewrite (langNames_perm _ _ Hperm).
Qed.

(** X3.  The [count] of an entry of the result is [NaN] or an integer from
    1 up; it is such an integer for a language whose name
    [Object.prototype] does not have, where no edge that reaches the fold
    names a language [__proto__]. *)
Theorem count_positive_or_nan username exclude_repo sw cw script nodes out
    lang st :
  collected username script = Returned nodes →
  (fetchTopLanguages username exclude_repo sw cw script).2 = Returned out →
  obj_get lang out = Some st →
  countsEdges (stat_count st)
  ∧ (ordinary lang →
     "__proto__" ∉ langNames (shownEdges (default [] exclude_repo) nodes) →
     ∃ z, stat_count st = Num z ∧ (1 ≤ z)%Z).
Proof.
  intros Hnodes Hout Hst. split.
  - destruct (fetchTopLanguages_entry _ _ _ _ _ _ _ _ _ Hnodes Hout Hst)
      as (es & raw & _ & _ & Hraw & ->).
    simpl. by eapply (proj1 (foldEdges_counts es)).
  - intros Hlang Hproto.
    destruct (fetchTopLanguages_summary _ _ _ _ _ _ _ _ _ Hnodes Hout Hst
                Hproto) as (es & raw & _ & _ & Hraw & ->).
    apply summary_Some in Hraw as (_ & Hcount & Hne); [|done]. simpl.
    eexists. split; [done|].
    destruct (edgesFor lang es); [done|]. simpl. lia.
Qed.
(** ** Totals *)

Lemma num_add_comm a b : num_add a b = num_add b a.
Proof. destruct a, b; simpl; try done. f_equal. lia. Qed.

Lemma num_add_assoc a b c :
  num_add a (num_add b c) = num_add (num_add a b) c.
Proof. destruct a, b, c; simpl; try done. f_equal. lia. Qed.

Lemma num_total_perm l l' : l ≡ₚ l' → num_total l = num_total l'.
Proof.
  unfold num_total. induction 1 as [|x l l' _ IH|x y l|l l' l'' _ IH _ IH'];
    simpl; [done|by rewrite IH| |congruence].
  by rewrite !num_add_assoc, (num_add_comm x y).
Qed.

Lemma num_total_replace (f : LanguageStat num → num) k v o prev d :
  obj_get k o = Some prev → f v = num_add (f prev) (Num d) →
  num_total ((fun kv => f kv.2) <$> obj_replace k v o)
  = num_add (num_total ((fun kv => f kv.2) <$> o)) (Num d).
Proof.
  intros E Hv. induction o as [|[k' v'] o IH]; [done|]. simpl in E |- *.
  destruct (String.eqb k k').
  - injection E as ->. rewrite fmap_cons. simpl. rewrite Hv.
    by rewrite <- !num_add_assoc, (num_add_comm (Num d)).
  - rewrite !fmap_cons. simpl. by rewrite IH, num_add_assoc.
Qed.

(** An assignment that adds [d] to what the property held, or to 0, adds
    [d] to the total. *)
Lemma num_total_set (f : LanguageStat num → num) k v o d :
  f v = num_add (from_option f (Num 0) (obj_get k o)) (Num d) →
  num_total ((fun kv => f kv.2) <$> obj_set k v o)
  = num_add (num_total ((fun kv => f kv.2) <$> o)) (Num d).
Proof.
  unfold obj_set. destruct (obj_get k o) as [prev|] eqn:E; simpl; intros Hv.
  - by eapply num_total_replace.
  - rewrite (num_total_perm _ ((fun kv => f kv.2) <$> (k, v) :: o))
      by (by rewrite obj_insert_perm).
    rewrite fmap_cons. simpl. rewrite Hv, num_add_comm. f_equal.
Qed.

Lemma ordinary_not_proto (names : list string) :
  Forall (fun name => ordinary name) names → "__proto__" ∉ names.
Proof.
  rewrite Forall_forall. intros Hall Hin. by apply Hall in Hin.
Qed.

(** A step of the fold for a language that [Object.prototype] does not
    have, while the accumulator still has [Object.prototype] behind it. *)
Lemma addEdge_ordinary acc e :
  acc_proto acc = None → ordinary (node_name (edge_node e)) →
  ∃ v,
    acc_own (addEdge acc e) = obj_set (node_name (edge_node e)) v (acc_own acc)
    ∧ stat_size v
      = num_add (from_option stat_size (Num 0)
                   (obj_get (node_name (edge_node e)) (acc_own acc)))
          (Num (edge_size e))
    ∧ stat_count v
      = num_add (from_option stat_count (Num 0)
                   (obj_get (node_name (edge_node e)) (acc_own acc)))
          (Num 1).
Proof.
  intros Hproto Hname. unfold addEdge, acc_get. rewrite Hproto.
  assert (String.eqb (node_name (edge_node e)) "__proto__" = false) as Hne.
  { apply String.eqb_neq. intros Heq. by rewrite Heq in Hname. }
  rewrite Hne. unfold ordinary in Hname.
  destruct (obj_get (node_name (edge_node e)) (acc_own acc)) as [prev|];
    [|destruct (inherited (node_name (edge_node e))); [done|]];
    unfold acc_set; rewrite Hne; simpl; eexists; (split; [done|]); done.
Qed.

Lemma languageStats_totals es :
  Forall (fun name => ordinary name) (langNames es) →
  num_total ((fun kv => stat_size kv.2) <$> languageStats es)
  = Num (sumSizes es)
  ∧ num_total ((fun kv => stat_count kv.2) <$> languageStats es)
    = Num (Z.of_nat (length es)).
Proof.
  induction es as [|e es IH] using rev_ind; [done|].
  unfold langNames. rewrite fmap_app, Forall_app.
  intros [Hes He]. simpl in He. apply Forall_inv in He.
  destruct (IH Hes) as [IHs IHc].
  unfold languageStats in *. rewrite foldEdges_snoc.
  destruct (addEdge_ordinary (foldEdges es) e) as (v & -> & Hs & Hc);
    [by apply foldEdges_proto, ordinary_not_proto|done|].
  rewrite (num_total_set stat_size _ _ _ _ Hs),
    (num_total_set stat_count _ _ _ _ Hc), IHs, IHc.
  rewrite sumSizes_app, length_app. simpl. split; f_equal; lia.
Qed.

Lemma weighAll_counts sw cw stats :
  (fun kv => stat_count kv.2) <$> weighAll sw cw stats
  = (fun kv => stat_count kv.2) <$> stats.
Proof.
  unfold weighAll. rewrite <- list_fmap_compose.
  apply list_fmap_ext. by intros _ [k v] _.
Qed.

Lemma weighAll_default_sizes stats :
  WeightLaws →
  (fun kv => stat_size kv.2)
    <$> weighAll (ofRaw (Num 1)) (ofRaw (Num 0)) stats
  = ofRaw <$> ((fun kv => stat_size kv.2) <$> stats).
Proof.
  intros Laws. unfold weighAll. rewrite <- !list_fmap_compose.
  apply list_fmap_ext. intros _ [k v] _.
  change (stat_size (weigh (ofRaw (Num 1)) (ofRaw (Num 0)) v)
          = ofRaw (stat_size v)).
  by rewrite (weigh_default _ Laws).
Qed.

Lemma fmap_Permutation_inv {A B} (f : A → B) l (l' : list A) :
  l ≡ₚ f <$> l' → ∃ l'', l = f <$> l'' ∧ l'' ≡ₚ l'.
Proof.
  intros (l'' & -> & Hperm)%Permutation_map_inv. by exists l''.
Qed.

(** X4.  Nothing is lost or counted twice.  Where every language that
    reaches the fold has a name that [Object.prototype] does not have, the
    [count]s of the result add up to the number of edges of the
    repositories that line 120 lets through; and with the weights left at
    1 and 0 the [size]s of the result are integers that add up to the sum
    of those edges' sizes. *)
Theorem totals_are_preserved username exclude_repo sw cw script nodes out :
  collected username script = Returned nodes →
  (fetchTopLanguages username exclude_repo sw cw script).2 = Returned out →
  Forall (fun name => ordinary name)
    (langNames (shownEdges (default [] exclude_repo) nodes)) →
  num_total ((fun kv => stat_count kv.2) <$> out)
  = Num (Z.of_nat (length (shownEdges (default [] exclude_repo) nodes)))
  ∧ (WeightLaws →
     default (ofRaw (Num 1)) sw = ofRaw (Num 1) →
     default (ofRaw (Num 0)) cw = ofRaw (Num 0) →
     ∃ sizes,
       (fun kv => stat_size kv.2) <$> out = ofRaw <$> sizes
       ∧ num_total sizes
         = Num (sumSizes (shownEdges (default [] exclude_repo) nodes))).
Proof.
  intros Hnodes Hout Hnames.
  pose proof (fetchTopLanguages_Returned _ _ _ _ _ _ _ Hnodes Hout) as Hagg.
  apply aggregate_Returned in Hagg as (es & _ & Hperm & ->).
  rewrite <- (langNames_perm _ _ Hperm) in Hnames.
  destruct (languageStats_totals es Hnames) as [Hsize Hcount].
  assert (∀ sw' cw',
            topLangs (weighAll sw' cw' (languageStats es))
            ≡ₚ weighAll sw' cw' (languageStats es)) as Hrank.
  { intros. apply topLangs_perm. rewrite weighAll_keys.
    apply languageStats_NoDup. }
  split.
  - rewrite (num_total_perm _ _ (fmap_Permutation _ _ _ (Hrank _ _))).
    rewrite weighAll_counts, Hcount. do 2 f_equal.
    by apply Permutation_length.
  - intros Laws -> ->.
    destruct (fmap_Permutation_inv ofRaw
                ((fun kv => stat_size kv.2)
                   <$> topLangs (weighAll (ofRaw (Num 1)) (ofRaw (Num 0))
                                   (languageStats es)))
                ((fun kv => stat_size kv.2) <$> languageStats es))
      as (sizes & Hsizes & Hperm').
    { rewrite <- weighAll_default_sizes by done.
      apply fmap_Permutation, Hrank. }
    exists sizes. split; [done|].
    rewrite (num_total_perm _ _ Hperm'), Hsize. f_equal.
    by apply sumSizes_perm.
Qed.

(** X5.  The [size] and the [count] of a language do not depend on the
    order in which the repositories were collected: two calls whose
    collected nodes are permutations of each other report the same for
    every language (or fail alike), where no edge that reaches the fold
    names a language [__proto__]. *)
Theorem sums_ignore_node_order username exclude_repo sw cw script script'
    nodes nodes' lang :
  collected username script = Returned nodes →
  collected username script' = Returned nodes' →
  nodes ≡ₚ nodes' →
  "__proto__" ∉ langNames (shownEdges (default [] exclude_repo) nodes) →
  sizeAndCount lang
    (fetchTopLanguages username exclude_repo sw cw script).2
  = sizeAndCount lang
      (fetchTopLanguages username exclude_repo sw cw script').2.
Proof.
  intros Hnodes Hnodes' Hperm Hproto. destruct (truthy username) eqn:Hu.
  - rewrite !fetchTopLanguages_eq by done. simpl.
    rewrite Hnodes, Hnodes'. simpl. apply sizeAndCount_aggregate; [|done].
    by rewrite Hperm.
  - unfold fetchTopLanguages. by rewrite Hu.
Qed.

Lemma filter_omap_entry (stats : list (string * LanguageStat Number)) v
    (ks : list string) :
  (filter (fun kv => stat_size kv.2 = v) (omap (entryOf stats) ks)).*1
  = filter (fun k => sizeOf stats k = v)
      (filter (fun k => k ∈ obj_keys stats) ks).
Proof.
  induction ks as [|k ks IH]; [done|].
  change (omap (entryOf stats) (k :: ks))
    with (match entryOf stats k with
          | Some y => y :: omap (entryOf stats) ks
          | None => omap (entryOf stats) ks
          end).
  rewrite (filter_cons _ k). unfold entryOf at 1, sizeOf at 1.
  destruct (obj_get k stats) as [st|] eqn:E; simpl.
  - rewrite decide_True by (apply obj_get_is_Some; by rewrite E).
    rewrite !filter_cons. unfold sizeOf at 1. rewrite E. simpl.
    case_decide; [rewrite fmap_cons; simpl; f_equal|]; exact IH.
  - rewrite decide_False by (by apply obj_get_None). exact IH.
Qed.

Lemma sizeOf_topLangs stats k :
  NoDup (obj_keys stats) → sizeOf (topLangs stats) k = sizeOf stats k.
Proof. intros Hnd. unfold sizeOf. by rewrite topLangs_get. Qed.

(** X6.  Ties keep the order of first appearance: the languages of one
    weighted [size] stand in the result in the order in which the fold
    first met them in its edge sequence.  This is so where no language
    name is an array index, which an object enumerates ahead of the other
    names, and no weighted size is [NaN], so that the comparator of line
    158 orders the keys consistently. *)
Theorem ties_keep_first_seen_order username exclude_repo sw cw script nodes
    out es v :
  OrderLaws →
  collected username script = Returned nodes →
  (fetchTopLanguages username exclude_repo sw cw script).2 = Returned out →
  flatEdges nodes (default [] exclude_repo) = Returned es →
  Forall (fun name => arrayIndex name = None) (langNames es) →
  Forall (fun kv => geq (stat_size kv.2) (stat_size kv.2)) out →
  (filter (fun kv => stat_size kv.2 = v) out).*1
  = filter (fun lang => sizeOf out lang = v)
      (firstSeen (filter (fun name => name ≠ "__proto__") (langNames es))).
Proof.
  intros Laws Hnodes Hout Hes Hnames _.
  pose proof (fetchTopLanguages_Returned _ _ _ _ _ _ _ Hnodes Hout) as Hagg.
  apply aggregate_Returned in Hagg as (es' & Hes' & _ & ->).
  assert (es' = es) as -> by congruence.
  set (W := weighAll (default (ofRaw (Num 1)) sw) (default (ofRaw (Num 0)) cw)
              (languageStats es)).
  assert (obj_keys W
          = firstSeen (filter (fun name => name ≠ "__proto__") (langNames es)))
    as Hkeys by (unfold W; by rewrite weighAll_keys, languageStats_keys).
  assert (NoDup (obj_keys W)) as Hnd
    by (unfold W; rewrite weighAll_keys; apply languageStats_NoDup).
  assert (Forall (fun k => arrayIndex k = None) (obj_keys W)) as Hplain.
  { apply Forall_forall. intros k Hk. unfold W in Hk.
    rewrite weighAll_keys in Hk. apply languageStats_keys_iff in Hk as [_ Hk].
    rewrite Forall_forall in Hnames. auto. }
  rewrite (filter_ext_in (fun lang => sizeOf (topLangs W) lang = v)
             (fun lang => sizeOf W lang = v))
    by (intros lang _; by rewrite sizeOf_topLangs).
  rewrite topLangs_omap, filter_omap_entry by done.
  rewrite (filter_all (fun k => k ∈ obj_keys W))
    by (intros k Hk; by rewrite js_sort_perm in Hk).
  by rewrite js_sort_stable, <- Hkeys.
Qed.

(** X7.  The exclusion lists count only through the collected repositories
    they name.  Two per-call lists that, with the process-wide list,
    exclude the same collected repositories give the same result: the order
    of the names, a repeated name, a name in both lists and the name of a
    repository that was not collected change nothing. *)
Theorem exclusion_is_by_name username exclude_repo exclude_repo' sw cw script
    nodes :
  collected username script = Returned nodes →
  (∀ repo, repo ∈ nodes →
     excluded (default [] exclude_repo) repo
     ↔ excluded (default [] exclude_repo') repo) →
  (fetchTopLanguages username exclude_repo sw cw script).2
  = (fetchTopLanguages username exclude_repo' sw cw script).2.
Proof.
  intros Hnodes Hsame. destruct (truthy username) eqn:Hu.
  - rewrite !fetchTopLanguages_eq by done. simpl. rewrite Hnodes. simpl.
    by apply aggregate_same_shown.
  - unfold fetchTopLanguages. by rewrite Hu.
Qed.

(** ** The order of the fold (lines 118-126) *)


(** ** The weighted size and the ranking (lines 151-162) *)

(** X15.  For a language whose name [Object.prototype] does not have,
    where no edge that reaches the fold names a language [__proto__], the
    [size] of the result is [Math.pow(size, size_weight) *
    Math.pow(count, count_weight)] on the summed sizes and the number of
    the language's edges in the repositories that line 120 lets through.
    With the weights 1 and 0, given or left to their defaults, this is the
    summed size itself. *)
Theorem size_is_weighted_sum username exclude_repo sw cw script nodes out lang
    st :
  collected username script = Returned nodes →
  (fetchTopLanguages username exclude_repo sw cw script).2 = Returned out →
  obj_get lang out = Some st →
  ordinary lang →
  "__proto__" ∉ langNames (shownEdges (default [] exclude_repo) nodes) →
  let edges := edgesFor lang (shownEdges (default [] exclude_repo) nodes) in
  stat_size st
  = times (Math_pow (ofRaw (Num (sumSizes edges)))
             (default (ofRaw (Num 1)) sw))
          (Math_pow (ofRaw (Num (Z.of_nat (length edges))))
             (default (ofRaw (Num 0)) cw))
  ∧ (WeightLaws →
     default (ofRaw (Num 1)) sw = ofRaw (Num 1) →
     default (ofRaw (Num 0)) cw = ofRaw (Num 0) →
     stat_size st = ofRaw (Num (sumSizes edges))).
Proof.
  intros Hnodes Hout Hst Hlang Hproto edges. subst edges.
  destruct (fetchTopLanguages_summary _ _ _ _ _ _ _ _ _ Hnodes Hout Hst
              Hproto) as (es & raw & _ & Hperm & Hraw & ->).
  apply summary_Some in Hraw as (Hsize & Hcount & _); [|done].
  pose proof (edgesFor_perm lang _ _ Hperm) as Hedges.
  assert (stat_size
            (weigh (default (ofRaw (Num 1)) sw) (default (ofRaw (Num 0)) cw)
               raw)
          = times
              (Math_pow
                 (ofRaw (Num (sumSizes
                                (edgesFor lang
                                   (shownEdges (default [] exclude_repo)
                                      nodes)))))
                 (default (ofRaw (Num 1)) sw))
              (Math_pow
                 (ofRaw (Num (Z.of_nat
                                (length
                                   (edgesFor lang
                                      (shownEdges (default [] exclude_repo)
                                         nodes))))))
                 (default (ofRaw (Num 0)) cw))) as Hweighted.
  { simpl. rewrite Hsize, Hcount.
    by rewrite (sumSizes_perm _ _ Hedges), (Permutation_length Hedges). }
  split; [done|]. intros Laws Hsw Hcw.
  rewrite Hweighted, Hsw, Hcw.
  by rewrite (pow_one Laws), (pow_zero Laws), (times_one Laws).
Qed.

(** X16.  In the result an entry that comes before another has a weighted
    [size] at least as large, where no language name is an array index,
    which an object enumerates ahead of the other names whatever its size,
    and no weighted size is [NaN]. *)
Theorem ranking_is_descending username exclude_repo sw cw script nodes out i j
    a b stA stB :
  OrderLaws →
  collected username script = Returned nodes →
  (fetchTopLanguages username exclude_repo sw cw script).2 = Returned out →
  Forall (fun name => arrayIndex name = None)
    (langNames (shownEdges (default [] exclude_repo) nodes)) →
  Forall (fun kv => geq (stat_size kv.2) (stat_size kv.2)) out →
  (i < j)%nat → out !! i = Some (a, stA) → out !! j = Some (b, stB) →
  geq (stat_size stA) (stat_size stB).
Proof.
  intros Laws Hnodes Hout Hnames Hsizes Hij Hi Hj.
  pose proof (fetchTopLanguages_Returned _ _ _ _ _ _ _ Hnodes Hout) as Hagg.
  apply aggregate_Returned in Hagg as (es & _ & Hperm & ->).
  set (W := weighAll (default (ofRaw (Num 1)) sw) (default (ofRaw (Num 0)) cw)
              (languageStats es)) in *.
  assert (NoDup (obj_keys W)) as Hnd
    by (unfold W; rewrite weighAll_keys; apply languageStats_NoDup).
  assert (StronglySorted (fun x y => geq (stat_size x.2) (stat_size y.2))
            (topLangs W)) as Hsorted.
  { apply topLangs_sorted; [done..| |].
    - apply Forall_forall. intros k Hk. unfold W in Hk.
      rewrite weighAll_keys in Hk.
      apply languageStats_keys_iff in Hk as [_ Hk].
      rewrite (langNames_perm _ _ Hperm) in Hk.
      rewrite Forall_forall in Hnames. auto.
    - by rewrite <- (topLangs_perm W Hnd). }
  apply (StronglySorted_lookup_lt _ _ _ _ _ _ Hsorted Hij Hi Hj).
Qed.

(** ** What is read of an excluded repository (lines 118-120) *)

Lemma sort_insert_fmap {A} (cmp : A → A → Z) (g : A → A) x l :
  (∀ a b, cmp (g a) (g b) = cmp a b) →
  sort_insert cmp (g x) (g <$> l) = g <$> sort_insert cmp x l.
Proof.
  intros Hg. induction l as [|y l IH]; [done|].
  rewrite fmap_cons. simpl. rewrite Hg.
  destruct (cmp x y <=? 0)%Z; [done|]. by rewrite IH.
Qed.

Lemma js_sort_fmap {A} (cmp : A → A → Z) (g : A → A) l :
  (∀ a b, cmp (g a) (g b) = cmp a b) →
  js_sort cmp (g <$> l) = g <$> js_sort cmp l.
Proof.
  intros Hg. induction l as [|x l IH]; [done|].
  rewrite fmap_cons. simpl. by rewrite IH, sort_insert_fmap.
Qed.

Lemma filter_fmap_fixed {A} (P : A → Prop) `{!∀ x, Decision (P x)}
    (g : A → A) (l : list A) :
  (∀ x, P (g x) ↔ P x) → (∀ x, P x → g x = x) →
  filter P (g <$> l) = filter P l.
Proof.
  intros Hiff Hfix. induction l as [|x l IH]; [done|].
  rewrite fmap_cons, !filter_cons, IH.
  destruct (decide (P x)) as [Hx|Hx].
  - rewrite decide_True by (by apply Hiff). by rewrite Hfix.
  - rewrite decide_False; [done|]. by rewrite Hiff.
Qed.

(** X17.  Of a repository that a list names the call reads the [name] and
    the [size] only: whatever its [languages] are, and also when they are
    missing, the outcome of the call is the same, trace, result and
    failure alike. *)
Theorem excluded_languages_are_never_read username exclude_repo sw cw script
    script' nodes nodes' :
  collected username script = Returned nodes →
  collected username script' = Returned nodes' →
  Forall2
    (fun node node' =>
       node = node'
       ∨ (excluded (default [] exclude_repo) node
          ∧ repo_name node' = repo_name node
          ∧ repo_size node' = repo_size node))
    nodes nodes' →
  (fetchTopLanguages username exclude_repo sw cw script).2
  = (fetchTopLanguages username exclude_repo sw cw script').2.
Proof.
  intros Hnodes Hnodes' Hsame. destruct (truthy username) eqn:Hu.
  - rewrite !fetchTopLanguages_eq by done. simpl.
    rewrite Hnodes, Hnodes'. simpl. unfold aggregate, flatEdges.
    set (ex := default [] exclude_repo) in *.
    set (g := fun node =>
                if decide (excluded ex node)
                then {| repo_name := repo_name node;
                        repo_size := repo_size node;
                        repo_languages := None |}
                else node).
    assert (∀ l, keptNodes l ex = filter (fun repo => shown ex repo)
                                    (js_sort bySize (g <$> l))) as Hkept.
    { intros l. unfold keptNodes. rewrite js_sort_fmap.
      - symmetry. apply filter_fmap_fixed.
        + intros x. rewrite !shown_spec. unfold g, excluded.
          by case_decide.
        + intros x [Hx _]%shown_spec. unfold g. by rewrite decide_False.
      - intros x y. unfold g, bySize. by repeat case_decide. }
    assert (g <$> nodes = g <$> nodes') as Hg.
    { clear Hnodes Hnodes'.
      induction Hsame as [|x y l l' [->|(Hx & Hname & Hsize)] _ IH];
        [done|by rewrite !fmap_cons, IH|].
      rewrite !fmap_cons, IH. f_equal. unfold g.
      rewrite decide_True by done.
      rewrite decide_True by (unfold excluded in *; by rewrite Hname).
      by rewrite Hname, Hsize. }
    by rewrite !Hkept, Hg.
  - unfold fetchTopLanguages. by rewrite Hu.
Qed.

End TopLanguages.

(** ** The integers with [NaN] satisfy the laws *)

Lemma smallInts_OrderLaws : OrderLaws (H := smallInts).
Proof.
  split.
  - intros [a|] [b|] [c|]; simpl; try done.
    intros Hab%Is_true_true%Z.leb_le Hbc%Is_true_true%Z.leb_le.
    apply Is_true_true, Z.leb_le. lia.
  - intros [a|] [b|]; simpl; try done. intros _ _ Hsgn.
    apply Is_true_true, Z.leb_le. lia.
  - intros [a|] [b|]; simpl; try lia. intros Hsgn.
    apply Is_true_true, Z.leb_le. lia.
  - intros [a|]; simpl; [|done]. rewrite Z.sub_diag. done.
Qed.

Lemma smallInts_WeightLaws : WeightLaws (H := smallInts).
Proof.
  split.
  - done.
  - intros [z|]; simpl; [|done]. f_equal. apply Z.pow_1_r.
  - intros [z|]; simpl; [|done]. f_equal. apply Z.mul_1_r.
Qed.

(** ** The scenarios of the specification, run on the model *)

Example scenario_default_weights :
  fetchTopLanguages [] noWrap (Some "octocat") None None None scenarioScript
  = ([EvFetch "octocat" None], Returned [("X", scenarioX); ("Y", scenarioY)]).
Proof. vm_compute. reflexivity. Qed.

Example scenario_count_weight :
  fetchTopLanguages [] noWrap (Some "octocat") (Some []) (Some (Num 0))
    (Some (Num 1)) scenarioScript
  = ([EvFetch "octocat" None],
     Returned
       [ ("X", mkStat "X" "#222" (Num 2) (Num 2));
         ("Y", mkStat "Y" "#333" (Num 1) (Num 1)) ]).
Proof. vm_compute. reflexivity. Qed.

Example scenario_excluded :
  fetchTopLanguages ["b"] noWrap (Some "octocat") (Some ["a"]) None None
    scenarioScript
  = ([EvFetch "octocat" None], Returned []).
Proof. vm_compute. reflexivity. Qed.

Example scenario_not_found :
  fetchTopLanguages [] noWrap (Some "octocat") None None None
    [inr (failing "OK" [notFound])]
  = ([EvFetch "octocat" None; EvLogError [notFound]],
     Thrown (CustomError (Some "Could not resolve to a User") USER_NOT_FOUND)).
Proof. vm_compute. reflexivity. Qed.

(** A language called like a member of [Object.prototype] is read as
    already met, and its [size] and [count] are [NaN]. *)
Example scenario_shadowed_language :
  (fetchTopLanguages [] noWrap (Some "octocat") None None None
     [mkPage false None shadowedLang]).2
  = Returned [ ("toString", mkStat "toString" "#111" NaN NaN);
               ("X", mkStat "X" "#222" (Num 5) (Num 1)) ].
Proof. vm_compute. reflexivity. Qed.

(** With a language [__proto__] the order of the collected repositories
    shows in the result: the entry of [__proto__] becomes the prototype of
    the accumulator, and a language met after it whose name is a field of
    an entry is read as already met. *)
Example scenario_proto_order :
  sizeAndCount "name"
    (fetchTopLanguages [] noWrap (Some "octocat") None None None
       [mkPage false None protoPair]).2
  = Returned (Some (NaN, NaN))
  ∧ sizeAndCount "name"
      (fetchTopLanguages [] noWrap (Some "octocat") None None None
         [mkPage false None (reverse protoPair)]).2
    = Returned (Some (Num 7, Num 1)).
Proof. split; vm_compute; reflexivity. Qed.

(** ** The properties at concrete inputs *)

Lemma substring_length (width : nat) (text : string) :
  (String.length (String.substring 0 width text) ≤ width)%nat.
Proof.
  revert text. induction width as [|w IH]; intros [|c text]; simpl; try lia.
  specialize (IH text). lia.
Qed.

Lemma noWrap_within : wrapsWithin noWrap.
Proof.
  intros text width [|maxLines] line; unfold noWrap; simpl.
  - by intros ?%elem_of_nil.
  - rewrite take_nil. intros ->%list_elem_of_singleton.
    apply substring_length.
Qed.

Lemma count_is_edge_count_witness :
  stat_count scenarioX
  = Num (Z.of_nat (length (edgesFor "X" (contributing [] [] scenarioRepos))))
  ∧ (Forall (fun repo => NoDup (langNames (edgeList repo)))
       (filter (fun repo => ¬ excluded [] [] repo) scenarioRepos) →
     stat_count scenarioX
     = Num (Z.of_nat (length (reposListing [] [] "X" scenarioRepos)))).
Proof.
  apply (count_is_edge_count [] noWrap (Some "octocat") None None None
           scenarioScript scenarioRepos
           [("X", scenarioX); ("Y", scenarioY)] "X" scenarioX);
    [vm_compute; reflexivity | vm_compute; reflexivity
    | vm_compute; reflexivity | decided | decided | decided].
Defined.

Lemma count_exceeds_repo_count :
  (fetchTopLanguages [] noWrap (Some "octocat") None None None
     [mkPage false None twiceX]).2
  = Returned [("X", mkStat "X" "#222" (Num 15) (Num 2))]
  ∧ length (reposListing [] [] "X" twiceX) = 1%nat
  ∧ ¬ (∀ out st,
         (fetchTopLanguages [] noWrap (Some "octocat") None None None
            [mkPage false None twiceX]).2 = Returned out →
         obj_get "X" out = Some st →
         stat_count st
         = Num (Z.of_nat (length (reposListing [] [] "X" twiceX)))).
Proof.
  split_and!; [vm_compute; reflexivity..|]. intros Hclaim.
  specialize (Hclaim _ _ eq_refl eq_refl). vm_compute in Hclaim. discriminate.
Qed.

(** C2.  A repository that no list names and that is called
    [constructor] is dropped by line 120, where [repoToHide[repo.name]]
    finds the member that the object inherits: with the default weights
    the [size] reported for [X] is 1, the size of the one edge that
    reaches the fold, while the edges for [X] of the repositories that are
    not excluded sum to 11. *)
Theorem size_misses_shadowed_repository :
  (fetchTopLanguages [] noWrap (Some "octocat") None None None
     [mkPage false None shadowedRepos]).2
  = Returned [("X", mkStat "X" "#111" (Num 1) (Num 1))]
  ∧ Forall (fun repo => ¬ excluded [] [] repo) shadowedRepos
  ∧ sumSizes (edgesFor "X" (contributing [] [] shadowedRepos)) = 11%Z.
Proof.
  split_and!; [vm_compute; reflexivity| |vm_compute; reflexivity].
  apply Forall_forall. intros repo _ [Hin|Hin]; by apply elem_of_nil in Hin.
Qed.

(** C3.  Two languages whose names are array indices stand in the result
    in the order of the indices, whatever their sizes: the object that
    line 159 fills enumerates such names first, in ascending order.  The
    entry of [2], of weighted size 1, comes before the entry of [10], of
    weighted size 100. *)
Theorem index_named_languages_come_first :
  (fetchTopLanguages [] noWrap (Some "octocat") None None None
     [mkPage false None numberedLangs]).2
  = Returned [ ("2", mkStat "2" "#222" (Num 1) (Num 1));
               ("10", mkStat "10" "#111" (Num 100) (Num 1)) ]
  ∧ geq (Num 1) (Num 100) = false.
Proof. split; vm_compute; reflexivity. Qed.

Lemma missing_edges_raise_witness :
  (fetchTopLanguages [] noWrap (Some "octocat") None None None
     [mkPage false None bareExcluded]).2
  = Thrown TypeError.
Proof.
  refine (proj1 (missing_edges_raise [] noWrap (Some "octocat") None None
                   None [mkPage false None bareExcluded] bareExcluded _ _ _)
            _);
    [reflexivity | reflexivity | decided | decided].
Defined.

Lemma missing_languages_raise :
  (fetchTopLanguages [] noWrap (Some "octocat") None None None
     [mkPage false None [bareRepo]]).2 = Thrown TypeError
  ∧ ¬ (∃ out,
         (fetchTopLanguages [] noWrap (Some "octocat") None None None
            [mkPage false None [bareRepo]]).2 = Returned out).
Proof.
  split; [vm_compute; reflexivity|]. intros [out Hout].
  vm_compute in Hout. discriminate.
Qed.

Lemma color_is_last_edge_witness :
  ∃ es e,
    flatEdges [] scenarioRepos [] = Returned es
    ∧ last (edgesFor "X" es) = Some e
    ∧ stat_color scenarioX = node_color (edge_node e).
Proof.
  apply (color_is_last_edge [] noWrap (Some "octocat") None None None
           scenarioScript scenarioRepos
           [("X", scenarioX); ("Y", scenarioY)] "X" scenarioX);
    vm_compute; reflexivity.
Defined.

Lemma color_is_not_first_edge :
  flatEdges [] twiceX []
  = Returned [mkEdge 10 "X" "#111"; mkEdge 5 "X" "#222"]
  ∧ (fetchTopLanguages [] noWrap (Some "octocat") None None None
       [mkPage false None twiceX]).2
    = Returned [("X", mkStat "X" "#222" (Num 15) (Num 2))]
  ∧ ¬ (∀ es e out st,
         flatEdges [] twiceX [] = Returned es →
         head (edgesFor "X" es) = Some e →
         (fetchTopLanguages [] noWrap (Some "octocat") None None None
            [mkPage false None twiceX]).2 = Returned out →
         obj_get "X" out = Some st →
         stat_color st = node_color (edge_node e)).
Proof.
  split_and!; [vm_compute; reflexivity..|]. intros Hclaim.
  specialize (Hclaim _ _ _ _ eq_refl eq_refl eq_refl eq_refl).
  vm_compute in Hclaim. discriminate.
Qed.



Lemma pagination_terminates_witness :
  paginate noWrap "octocat" twoPages None []
  = (fetchEvents "octocat" None twoPages, Returned (pagesNodes twoPages))
  ∧ length (pagesNodes twoPages)
    = sum_list ((length ∘ nodes) <$> omap pageOf twoPages).
Proof.
  apply (pagination_terminates noWrap "octocat"
           [mkPage true (Some "c1") (take 1 scenarioRepos)]
           (mkPage false None (drop 1 scenarioRepos)) []);
    [repeat constructor | exact I].
Defined.

Lemma missing_username_witness :
  fetchTopLanguages (JS := smallInts) [] noWrap (Some "") None None None
    scenarioScript
  = ([], Thrown (MissingParamError ["username"])).
Proof.
  apply (missing_username [] noWrap (Some "") None None None scenarioScript).
  right. reflexivity.
Defined.

Lemma error_envelope_witness :
  (fetchTopLanguages (JS := smallInts) [] noWrap (Some "octocat") None None
     None [inr (failing "OK" [notFound])]).2
  = Thrown (CustomError (Some "Could not resolve to a User") USER_NOT_FOUND).
Proof.
  refine (proj1 (proj1 (error_envelope [] noWrap (Some "octocat") None None
                          None [] (failing "OK" [notFound]) notFound [] []
                          noWrap_within _ _ _) _) _ _ _);
    [reflexivity | constructor | reflexivity | reflexivity | reflexivity
    | discriminate].
Defined.

Lemma first_error_decides_witness :
  ∃ e,
    (fetchTopLanguages (JS := smallInts) [] noWrap (Some "octocat") None None
       None [inr (failing "Forbidden" [rateLimited; notFound])]).2 = Thrown e
    ∧ (fetchTopLanguages (JS := smallInts) [] noWrap (Some "octocat") None
         None None [inr (failing "Forbidden" [rateLimited])]).2 = Thrown e
    ∧ (err_type rateLimited ≠ Some "NOT_FOUND" →
       ∀ message, e ≠ CustomError message USER_NOT_FOUND).
Proof.
  apply (first_error_decides [] noWrap (Some "octocat") None None None []
           (failing "Forbidden" [rateLimited; notFound])
           (failing "Forbidden" [rateLimited]) rateLimited [notFound] [] [] []);
    [reflexivity | constructor | reflexivity | reflexivity | reflexivity].
Defined.

(** ** The further properties at concrete inputs *)

Lemma names_are_unique_keys_witness :
  NoDup (obj_keys [("X", scenarioX); ("Y", scenarioY)])
  ∧ ∀ lang st,
      (lang, st) ∈ [("X", scenarioX); ("Y", scenarioY)] → stat_name st = lang.
Proof.
  apply (names_are_unique_keys [] noWrap (Some "octocat") None None None
           scenarioScript).
  vm_compute. reflexivity.
Defined.

Lemma languages_are_those_shown_witness :
  "X" ∈ obj_keys [("X", mkStat "X" "#111" (Num 1) (Num 1))]
  ↔ "X" ≠ "__proto__" ∧ "X" ∈ langNames (shownEdges [] [] shadowedRepos).
Proof.
  apply (languages_are_those_shown (JS := smallInts) [] noWrap
           (Some "octocat") None None None
           [mkPage false None shadowedRepos] shadowedRepos);
    vm_compute; reflexivity.
Defined.

Lemma count_positive_or_nan_witness :
  countsEdges (Num 1)
  ∧ (ordinary "X" →
     "__proto__" ∉ langNames (shownEdges [] [] shadowedLang) →
     ∃ z, Num 1 = Num z ∧ (1 ≤ z)%Z).
Proof.
  apply (count_positive_or_nan [] noWrap (Some "octocat") None None None
           [mkPage false None shadowedLang] shadowedLang
           [ ("toString", mkStat "toString" "#111" NaN NaN);
             ("X", mkStat "X" "#222" (Num 5) (Num 1)) ]
           "X" (mkStat "X" "#222" (Num 5) (Num 1)));
    vm_compute; reflexivity.
Defined.

Lemma totals_are_preserved_witness :
  num_total
    ((fun kv : string * LanguageStat num => stat_count kv.2)
       <$> [("X", scenarioX); ("Y", scenarioY)])
  = Num (Z.of_nat (length (shownEdges [] [] scenarioRepos)))
  ∧ ∃ sizes,
      (fun kv : string * LanguageStat num => stat_size kv.2)
        <$> [("X", scenarioX); ("Y", scenarioY)]
      = ofRaw (JsNumber := smallInts) <$> sizes
      ∧ num_total sizes = Num (sumSizes (shownEdges [] [] scenarioRepos)).
Proof.
  destruct (totals_are_preserved [] noWrap (Some "octocat") None None None
              scenarioScript scenarioRepos
              [("X", scenarioX); ("Y", scenarioY)])
    as [Hcount Hsize];
    [vm_compute; reflexivity | vm_compute; reflexivity | decided |].
  split; [exact Hcount|].
  exact (Hsize smallInts_WeightLaws eq_refl eq_refl).
Defined.

Lemma sums_ignore_node_order_witness :
  sizeAndCount "X"
    (fetchTopLanguages (JS := smallInts) [] noWrap (Some "octocat") None None
       None scenarioScript).2
  = sizeAndCount "X"
      (fetchTopLanguages [] noWrap (Some "octocat") None None None
         [mkPage false None (reverse scenarioRepos)]).2.
Proof.
  apply (sums_ignore_node_order [] noWrap (Some "octocat") None None None
           scenarioScript [mkPage false None (reverse scenarioRepos)]
           scenarioRepos (reverse scenarioRepos) "X");
    [reflexivity | reflexivity | apply perm_swap | decided].
Defined.

Lemma ties_keep_first_seen_order_witness :
  (filter (fun kv : string * LanguageStat num => stat_size kv.2 = Num 1)
     [ ("X", mkStat "X" "#222" (Num 1) (Num 2));
       ("Y", mkStat "Y" "#333" (Num 1) (Num 1)) ]).*1
  = filter
      (fun lang =>
         sizeOf
           [ ("X", mkStat "X" "#222" (Num 1) (Num 2));
             ("Y", mkStat "Y" "#333" (Num 1) (Num 1)) ] lang
         = Num 1)
      (firstSeen
         (filter (fun name => name ≠ "__proto__")
            (langNames
               [mkEdge 50 "X" "#111"; mkEdge 70 "X" "#222";
                mkEdge 30 "Y" "#333"]))).
Proof.
  apply (ties_keep_first_seen_order [] noWrap (Some "octocat") None
           (Some (Num 0)) (Some (Num 0)) scenarioScript scenarioRepos
           [ ("X", mkStat "X" "#222" (Num 1) (Num 2));
             ("Y", mkStat "Y" "#333" (Num 1) (Num 1)) ]
           [mkEdge 50 "X" "#111"; mkEdge 70 "X" "#222"; mkEdge 30 "Y" "#333"]
           (Num 1) smallInts_OrderLaws);
    [vm_compute; reflexivity | vm_compute; reflexivity
    | vm_compute; reflexivity | decided | decided].
Defined.

Lemma exclusion_is_by_name_witness :
  (fetchTopLanguages (JS := smallInts) [] noWrap (Some "octocat")
     (Some ["b"; "b"]) None None scenarioScript).2
  = (fetchTopLanguages [] noWrap (Some "octocat") (Some ["zzz"; "b"]) None
       None scenarioScript).2.
Proof.
  apply (exclusion_is_by_name [] noWrap (Some "octocat") (Some ["b"; "b"])
           (Some ["zzz"; "b"]) None None scenarioScript scenarioRepos);
    [reflexivity|].
  intros repo Hin. unfold excluded. simpl.
  apply elem_of_cons in Hin as [->|Hin];
    [|apply list_elem_of_singleton in Hin as ->]; simpl;
    rewrite !elem_of_cons, !elem_of_nil; intuition congruence.
Defined.

Lemma rejected_fetch_is_rethrown_witness :
  fetchTopLanguages (JS := smallInts) [] noWrap (Some "octocat") None None
    None [mkPage true (Some "c1") (take 1 scenarioRepos); inl TypeError]
  = (fetchEvents "octocat" None
       [mkPage true (Some "c1") (take 1 scenarioRepos); inl TypeError],
     Thrown TypeError).
Proof.
  apply (rejected_fetch_is_rethrown [] noWrap (Some "octocat") None None None
           [mkPage true (Some "c1") (take 1 scenarioRepos)] TypeError []);
    [reflexivity | repeat constructor].
Defined.

Lemma errors_are_logged_then_thrown_witness :
  fetchTopLanguages (JS := smallInts) [] noWrap (Some "octocat") None None
    None [inr (failing "OK" [notFound])]
  = ([EvFetch "octocat" None; EvLogError [notFound]],
     Thrown (errorFor noWrap (failing "OK" [notFound]) [notFound])).
Proof.
  apply (errors_are_logged_then_thrown [] noWrap (Some "octocat") None None
           None [] (failing "OK" [notFound]) [notFound] []);
    [reflexivity | constructor | reflexivity].
Defined.

Lemma empty_error_list_is_a_type_error_witness :
  (fetchTopLanguages (JS := smallInts) [] noWrap (Some "octocat") None None
     None [inr (failing "OK" [])]).2
  = Thrown TypeError.
Proof.
  apply (empty_error_list_is_a_type_error [] noWrap (Some "octocat") None None
           None [] (failing "OK" []) []);
    [reflexivity | constructor | reflexivity].
Defined.

Lemma missing_data_is_a_type_error_witness :
  fetchTopLanguages (JS := smallInts) [] noWrap (Some "octocat") None None
    None [inr hollow]
  = ([EvFetch "octocat" None], Thrown TypeError).
Proof.
  apply (missing_data_is_a_type_error [] noWrap (Some "octocat") None None
           None [] hollow []);
    [reflexivity | constructor | reflexivity | reflexivity].
Defined.

Lemma pagination_has_no_bound_witness :
  fetchTopLanguages (JS := smallInts) [] noWrap (Some "octocat") None None
    None [mkPage true (Some "c1") scenarioRepos]
  = ([EvFetch "octocat" None; EvFetch "octocat" (Some "c1")], Pending).
Proof.
  apply (pagination_has_no_bound [] noWrap (Some "octocat") None None None
           [mkPage true (Some "c1") scenarioRepos]);
    [reflexivity | repeat constructor].
Defined.

Lemma logging_means_failing_witness :
  ∃ res,
    inr res ∈ [inr (B := Response) (A := Error) (failing "OK" [notFound])]
    ∧ errors res = Some [notFound]
    ∧ (fetchTopLanguages (JS := smallInts) [] noWrap (Some "octocat") None
         None None [inr (failing "OK" [notFound])]).2
      = Thrown (errorFor noWrap res [notFound])
    ∧ last (fetchTopLanguages (JS := smallInts) [] noWrap (Some "octocat")
              None None None [inr (failing "OK" [notFound])]).1
      = Some (EvLogError [notFound]).
Proof.
  apply (logging_means_failing [] noWrap (Some "octocat") None None None
           [inr (failing "OK" [notFound])] [notFound]).
  apply (list_elem_of_lookup_2 _ 1). reflexivity.
Defined.


Lemma size_is_weighted_sum_witness :
  stat_size scenarioX
  = times
      (Math_pow
         (Num (sumSizes (edgesFor "X" (shownEdges [] [] scenarioRepos))))
         (Num 1))
      (Math_pow
         (Num (Z.of_nat
                 (length (edgesFor "X" (shownEdges [] [] scenarioRepos)))))
         (Num 0))
  ∧ stat_size scenarioX
    = Num (sumSizes (edgesFor "X" (shownEdges [] [] scenarioRepos))).
Proof.
  destruct (size_is_weighted_sum [] noWrap (Some "octocat") None None None
              scenarioScript scenarioRepos
              [("X", scenarioX); ("Y", scenarioY)] "X" scenarioX)
    as [Hsize Hdefault];
    [vm_compute; reflexivity | vm_compute; reflexivity
    | vm_compute; reflexivity | decided | decided |].
  split; [exact Hsize|].
  exact (Hdefault smallInts_WeightLaws eq_refl eq_refl).
Defined.

Lemma ranking_is_descending_witness :
  geq (stat_size scenarioX) (stat_size scenarioY).
Proof.
  apply (ranking_is_descending [] noWrap (Some "octocat") None None None
           scenarioScript scenarioRepos
           [("X", scenarioX); ("Y", scenarioY)] 0 1 "X" "Y" scenarioX
           scenarioY smallInts_OrderLaws);
    [vm_compute; reflexivity | vm_compute; reflexivity | decided | decided
    | lia | reflexivity | reflexivity].
Defined.

Lemma excluded_languages_are_never_read_witness :
  (fetchTopLanguages (JS := smallInts) [] noWrap (Some "octocat") (Some ["b"])
     None None [mkPage false None sizelessRepos]).2
  = (fetchTopLanguages [] noWrap (Some "octocat") (Some ["b"]) None None
       [mkPage false None bareExcluded]).2.
Proof.
  apply (excluded_languages_are_never_read [] noWrap (Some "octocat")
           (Some ["b"]) None None [mkPage false None sizelessRepos]
           [mkPage false None bareExcluded] sizelessRepos bareExcluded);
    [reflexivity | reflexivity|].
  constructor; [by left|]. constructor; [|constructor].
  right. split_and!; [|reflexivity..]. left. constructor.
Defined.
